(** * Burn-after-reading secret store: the two storage backends

    A shallow embedding of [internal/models], [internal/store/store.go],
    the in-process backend ([MemoryStore]) and the remote backend
    ([RedisStore]), followed by the properties of the storage contract.

    Conventions.
    - A Go [int] is a 64-bit two's-complement integer, kept in [Z] with the
      wrap-around of [++] written out ([Go.int_wrap]).
    - A [time.Time] is an instant in nanoseconds ([Z]); a [time.Duration]
      is a saturated 64-bit count of nanoseconds.
    - [*models.Secret] is a location in an explicit heap, so that the
      sharing between the table and its callers is visible.
    - [time.Now()] is an argument of the operation that reads the clock. *)

From Stdlib Require Import ZArith Lia.
From stdpp Require Import base option gmap strings list.

Local Open Scope Z_scope.

(** ** Go primitives *)

Module Go.

Definition int_min : Z := - 2 ^ 63.
Definition int_max : Z := 2 ^ 63 - 1.

(** The values a Go [int] can hold. *)
Definition is_int (z : Z) : Prop := int_min <= z <= int_max.

(** Two's-complement wrap-around of an arithmetic result. *)
Definition int_wrap (z : Z) : Z := (z + 2 ^ 63) mod 2 ^ 64 - 2 ^ 63.

Definition Time := Z.
Definition Duration := Z.

Definition minDuration : Duration := - 2 ^ 63.
Definition maxDuration : Duration := 2 ^ 63 - 1.

(** [t.After(u)]: strictly later. *)
Definition After (t u : Time) : bool := u <? t.

(** [t.Sub(u)]: the difference, saturated to the range of a Duration. *)
Definition Sub (t u : Time) : Duration :=
  Z.max minDuration (Z.min maxDuration (t - u)).

(** [time.Until(t)], with the clock reading [now]. *)
Definition Until (now t : Time) : Duration := Sub t now.

Definition Millisecond : Duration := 1000000.
Definition Second : Duration := 1000 * Millisecond.

End Go.

(** ** internal/models *)

Module models.

Record Secret := mkSecret {
  ID : string;
  EncryptedData : list Byte.byte;
  MaxViews : Z;
  CurrentViews : Z;
  ExpiresAt : Go.Time;
  CreatedAt : Go.Time;
  Passphrase : string
}.

(** The assignment [secret.CurrentViews = v]. *)
Definition with_views (v : Z) (s : Secret) : Secret :=
  {| ID := ID s; EncryptedData := EncryptedData s; MaxViews := MaxViews s;
     CurrentViews := v; ExpiresAt := ExpiresAt s; CreatedAt := CreatedAt s;
     Passphrase := Passphrase s |}.

End models.

Import models.

(** ** internal/store/store.go: the error values *)

Inductive error : Type :=
  | ErrNotFound                (* "secret not found" *)
  | ErrExpired                 (* "secret has expired" *)
  | ErrMaxViews                (* "secret has reached maximum views" *)
  | TxFailedErr                (* redis.TxFailedErr: the optimistic lock failed *)
  | ErrOther (msg : string).   (* codec and script faults *)

(** What a call produces: a value, an error value, or a run-time panic. *)
Inductive outcome (A : Type) : Type :=
  | Ok (a : A)
  | Err (e : error)
  | Panic.

Arguments Ok {A} a.
Arguments Err {A} e.
Arguments Panic {A}.

(** ** A state-and-error monad shared by both backends *)

Definition M (S A : Type) : Type := S -> outcome A * S.

Definition ret {S A} (a : A) : M S A := fun σ => (Ok a, σ).

Definition bind {S A B} (m : M S A) (k : A -> M S B) : M S B :=
  fun σ =>
    match m σ with
    | (Ok a, σ') => k a σ'
    | (Err e, σ') => (Err e, σ')
    | (Panic, σ') => (Panic, σ')
    end.

(** [return ..., e] *)
Definition fail {S A} (e : error) : M S A := fun σ => (Err e, σ).

(** [_ = m]: run [m] and drop whatever it reports. *)
Definition ignore {S A} (m : M S A) : M S unit :=
  fun σ => (Ok tt, snd (m σ)).

Definition gets {S A} (f : S -> A) : M S A := fun σ => (Ok (f σ), σ).
Definition modify {S} (f : S -> S) : M S unit := fun σ => (Ok tt, f σ).

Global Instance M_ret {S} : MRet (M S) := fun A => @ret S A.
Global Instance M_bind {S} : MBind (M S) := fun A B k m => @bind S A B m k.

(** Run a loop body over the elements of a list, in order. *)
Fixpoint for_each {S A} (body : A -> M S unit) (l : list A) : M S unit :=
  match l with
  | [] => ret tt
  | x :: r => bind (body x) (fun _ => for_each body r)
  end.

(** Run [m] and hand its outcome to the caller instead of stopping. *)
Definition observe {S A} (m : M S A) : M S (outcome A) :=
  fun σ => (Ok (fst (m σ)), snd (m σ)).

(** ** The in-process backend *)

Module MemoryStore.

Definition loc := positive.

(** The Go heap restricted to secrets, and the fields of the store.
    [secrets = None] is the nil map; [cancelled] records that
    [cleanupCancel] has been called. *)
Record State := mkState {
  heap : gmap loc Secret;
  secrets : option (gmap string loc);
  cancelled : bool
}.

Definition set_secrets (t : option (gmap string loc)) (σ : State) : State :=
  {| heap := heap σ; secrets := t; cancelled := cancelled σ |}.

Definition set_heap (h : gmap loc Secret) (σ : State) : State :=
  {| heap := h; secrets := secrets σ; cancelled := cancelled σ |}.

Definition set_cancelled (σ : State) : State :=
  {| heap := heap σ; secrets := secrets σ; cancelled := true |}.

(** [make(map[string]*models.Secret)] with the sweeper running. *)
Definition NewMemoryStore (h : gmap loc Secret) : State :=
  {| heap := h; secrets := Some ∅; cancelled := false |}.

(** [*p]: a nil (unallocated) pointer panics. *)
Definition deref (p : loc) : M State Secret :=
  fun σ => match heap σ !! p with
           | Some s => (Ok s, σ)
           | None => (Panic, σ)
           end.

(** [v, ok := s.secrets[id]]: reading a nil map finds nothing. *)
Definition map_read (id : string) : M State (option loc) :=
  gets (fun σ => match secrets σ with
                 | Some t => t !! id
                 | None => None
                 end).

(** [s.secrets[id] = p]: assignment to an entry of a nil map panics. *)
Definition map_assign (id : string) (p : loc) : M State unit :=
  fun σ => match secrets σ with
           | Some t => (Ok tt, set_secrets (Some (<[id := p]> t)) σ)
           | None => (Panic, σ)
           end.

(** [delete(s.secrets, id)]: a no-op on a nil map or a missing key. *)
Definition map_delete (id : string) : M State unit :=
  modify (fun σ => match secrets σ with
                   | Some t => set_secrets (Some (delete id t)) σ
                   | None => σ
                   end).

(** [p.CurrentViews = v] *)
Definition store_views (p : loc) (v : Z) : M State unit :=
  modify (fun σ => set_heap (alter (with_views v) p (heap σ)) σ).

Definition Save (secret : loc) : M State unit :=
  s ← deref secret;
  map_assign (ID s) secret.

Definition Get (now : Go.Time) (id : string) : M State loc :=
  o ← map_read id;
  match o with
  | None => fail ErrNotFound
  | Some secret =>
      s ← deref secret;
      if Go.After now (ExpiresAt s) then fail ErrExpired
      else if MaxViews s <=? CurrentViews s then fail ErrMaxViews
      else ret secret
  end.

Definition Delete (id : string) : M State unit :=
  map_delete id.

Definition IncrementViews (now : Go.Time) (id : string) : M State Z :=
  o ← map_read id;
  match o with
  | None => fail ErrNotFound
  | Some secret =>
      s ← deref secret;
      if Go.After now (ExpiresAt s) then
        map_delete id ;; fail ErrExpired
      else if MaxViews s <=? CurrentViews s then
        map_delete id ;; fail ErrMaxViews
      else
        let v := Go.int_wrap (CurrentViews s + 1) in
        store_views secret v ;;
        (if MaxViews s <=? v then map_delete id else ret tt) ;;
        ret v
  end.

Definition Close : M State unit :=
  modify set_cancelled ;;
  modify (set_secrets None).

(** The body of the [range] loop of [cleanup]. *)
Definition cleanup_body (now : Go.Time) (e : string * loc) : M State unit :=
  s ← deref (snd e);
  if Go.After now (ExpiresAt s) || (MaxViews s <=? CurrentViews s)
  then map_delete (fst e)
  else ret tt.

(** [cleanup]: the loop ranges over the entries of the table; an
    iteration deletes at most its own key, so the entries visited are
    those present when the loop starts. *)
Definition cleanup (now : Go.Time) : M State unit :=
  t ← gets secrets;
  for_each (cleanup_body now) (map_to_list (default ∅ t)).

(** What the [select] of [cleanupLoop] receives. *)
Inductive event := Tick (now : Go.Time) | Done.

Fixpoint cleanupLoop (evs : list event) : M State unit :=
  match evs with
  | [] => ret tt
  | Done :: _ => ret tt
  | Tick now :: r => cleanup now ;; cleanupLoop r
  end.

(** Every pointer held by the table is allocated. *)
Definition wf (σ : State) : Prop :=
  forall t id p, secrets σ = Some t -> t !! id = Some p -> is_Some (heap σ !! p).

(** The test of the [if] in [cleanup]. *)
Definition reclaimable (now : Go.Time) (s : Secret) : bool :=
  Go.After now (ExpiresAt s) || (MaxViews s <=? CurrentViews s).

(** The table a run of the loop body over [l] leaves behind. *)
Fixpoint swept (now : Go.Time) (h : gmap loc Secret)
    (l : list (string * loc)) (t : gmap string loc) : gmap string loc :=
  match l with
  | [] => t
  | (id, p) :: r =>
      match h !! p with
      | Some s => swept now h r (if reclaimable now s then delete id t else t)
      | None => t
      end
  end.

End MemoryStore.

(** ** The remote backend *)

(** [encoding/gob] is a library: its encoder and decoder are taken as an
    interface.  A blob is whatever the encoder produces; [None] is the
    library reporting an error. *)
Class Gob := {
  blob : Type;
  gob_Encode : Secret -> option blob;
  gob_Decode : blob -> option Secret
}.

(** The decoder reads back what the encoder wrote for [s]. *)
Definition gob_round_trip `{Gob} (s : Secret) : Prop :=
  exists b, gob_Encode s = Some b /\ gob_Decode b = Some s.

Module RedisStore.

Section WithGob.

Context `{Gob}.

(** The key-value engine behind [r.client].  A key holds a blob and,
    when it was set with a TTL, the instant at which the engine stops
    serving it: a key set at [t] with TTL [d] is gone from [t + d] on.
    The engine answers every command it is sent; a client error other
    than [redis.Nil] and [redis.TxFailedErr] (a lost connection, a
    cancelled context) is not part of the model.  [watches] counts the
    WATCH transactions the engine was asked to run; no operation reads
    it. *)
Record entry := mkEntry {
  value : blob;
  deadline : option Go.Time
}.

Record State := mkState {
  keys : gmap string entry;
  watches : nat
}.

Definition set_keys (k : gmap string entry) (σ : State) : State :=
  {| keys := k; watches := watches σ |}.

Definition count_watch (σ : State) : State :=
  {| keys := keys σ; watches := S (watches σ) |}.

(** The entry the engine serves for [key] at [now], if any. *)
Definition served (now : Go.Time) (key : string) (σ : State) : option entry :=
  match keys σ !! key with
  | Some e =>
      match deadline e with
      | Some d => if d <=? now then None else Some e
      | None => Some e
      end
  | None => None
  end.

(** GET: [None] is the reply [redis.Nil]. *)
Definition cmd_Get (now : Go.Time) (key : string) : M State (option blob) :=
  gets (fun σ => value <$> served now key σ).

(** SET with an expiry; the callers below pass [ttl > 0] only. *)
Definition cmd_Set (now : Go.Time) (key : string) (data : blob)
    (ttl : Go.Duration) : M State unit :=
  modify (fun σ =>
    set_keys (<[key := {| value := data;
                          deadline := if 0 <? ttl then Some (now + ttl)
                                      else None |}]> (keys σ)) σ).

(** DEL *)
Definition cmd_Del (key : string) : M State unit :=
  modify (fun σ => set_keys (delete key (keys σ)) σ).

(** What TTL answers for a key with [remaining] nanoseconds to live.
    The engine replies in whole seconds, rounding the remaining
    milliseconds to the nearest second, and the client turns the reply
    [n] into [n * time.Second]: a key in its last half second reports 0. *)
Definition ttl_reply (remaining : Go.Duration) : Go.Duration :=
  (remaining / Go.Millisecond + 500) / 1000 * Go.Second.

(** TTL: [-2] for a missing key, [-1] for a key without expiry. *)
Definition cmd_TTL (now : Go.Time) (key : string) : M State Go.Duration :=
  gets (fun σ => match served now key σ with
                 | None => -2
                 | Some e => match deadline e with
                             | None => -1
                             | Some d => ttl_reply (d - now)
                             end
                 end).

(** *** Helpers *)

Definition secretKey (id : string) : string := "secret:" +:+ id.

Definition encode (secret : Secret) : M State blob :=
  match gob_Encode secret with
  | Some b => ret b
  | None => fail (ErrOther "gob: encode")
  end.

Definition decode (data : blob) : M State Secret :=
  match gob_Decode data with
  | Some s => ret s
  | None => fail (ErrOther "gob: decode")
  end.

(** *** Operations *)

Definition Save (now : Go.Time) (secret : Secret) : M State unit :=
  data ← encode secret;
  let ttl := Go.Until now (ExpiresAt secret) in
  if ttl <=? 0 then fail ErrExpired
  else cmd_Set now (secretKey (ID secret)) data ttl.

Definition Delete (id : string) : M State unit :=
  cmd_Del (secretKey id).

Definition Get (now : Go.Time) (id : string) : M State Secret :=
  o ← cmd_Get now (secretKey id);
  match o with
  | None => fail ErrNotFound
  | Some data =>
      secret ← decode data;
      if MaxViews secret <=? CurrentViews secret then
        ignore (Delete id) ;; fail ErrMaxViews
      else ret secret
  end.

(** What [txf] queues in the transaction pipeline. *)
Inductive queued :=
  | QDel
  | QSet (newData : blob) (ttl : Go.Duration)
  | QNothing.

Definition exec (now : Go.Time) (key : string) (q : queued) : M State unit :=
  match q with
  | QDel => cmd_Del key
  | QSet newData ttl => cmd_Set now key newData ttl
  | QNothing => ret tt
  end.

(** The body of [txf] up to the pipeline: it reads the key and yields
    [resultViews] with the commands to commit. *)
Definition txf (now : Go.Time) (key : string) : M State (Z * queued) :=
  o ← cmd_Get now key;
  match o with
  | None => fail ErrNotFound
  | Some data =>
      secret ← decode data;
      if Go.After now (ExpiresAt secret) then fail ErrExpired
      else if MaxViews secret <=? CurrentViews secret then fail ErrMaxViews
      else
        let v := Go.int_wrap (CurrentViews secret + 1) in
        newData ← encode (with_views v secret);
        ttl ← cmd_TTL now key;
        ret (v, if MaxViews secret <=? v then QDel
                else if 0 <? ttl then QSet newData ttl
                else QNothing)
  end.

(** One pass of the retry loop as the outside world shapes it: the
    clock, and the write (if any) that another client lands on the
    watched key between this client's read and its EXEC.  [Some None]
    is a rival DEL. *)
Record attempt := mkAttempt {
  att_now : Go.Time;
  att_rival : option (option entry)
}.

Definition rival_write (key : string) (w : option (option entry)) : M State unit :=
  match w with
  | None => ret tt
  | Some (Some e) => modify (fun σ => set_keys (<[key := e]> (keys σ)) σ)
  | Some None => cmd_Del key
  end.

(** [r.client.Watch(ctx, txf, key)]: the queued commands take effect
    only if nobody wrote the watched key; otherwise EXEC is refused
    with [TxFailedErr].  A pipeline with nothing queued sends no EXEC,
    so it cannot be refused. *)
Definition Watch (a : attempt) (key : string) : M State Z :=
  fun σ =>
    match txf (att_now a) key (count_watch σ) with
    | (Ok (v, q), σ1) =>
        match att_rival a, q with
        | Some w, QNothing => (rival_write key (Some w) ;; ret v : M State Z) σ1
        | Some w, _ => (rival_write key (Some w) ;; fail TxFailedErr : M State Z) σ1
        | None, _ => (exec (att_now a) key q ;; ret v : M State Z) σ1
        end
    | (Err e, σ1) => (rival_write key (att_rival a) ;; fail e : M State Z) σ1
    | (Panic, σ1) => (Panic, σ1)
    end.

(** The [for i := 0; i < 3; i++] loop, with [n] passes left. *)
Fixpoint retry (n : nat) (i : nat) (env : nat -> attempt) (id : string)
    : M State Z :=
  match n with
  | O => fail TxFailedErr
  | S n' => fun σ =>
      match Watch (env i) (secretKey id) σ with
      | (Ok resultViews, σ') => (Ok resultViews, σ')
      | (Err TxFailedErr, σ') => retry n' (S i) env id σ'
      | (Err ErrExpired, σ') => (ignore (Delete id) ;; fail ErrExpired : M State Z) σ'
      | (Err ErrMaxViews, σ') => (ignore (Delete id) ;; fail ErrMaxViews : M State Z) σ'
      | (Err e, σ') => (Err e, σ')
      | (Panic, σ') => (Panic, σ')
      end
  end.

Definition IncrementViews (env : nat -> attempt) (id : string) : M State Z :=
  retry 3 0 env id.

(** A pass that nobody disturbs. *)
Definition quiet (now : Go.Time) : attempt :=
  {| att_now := now; att_rival := None |}.

(** Each of the next [n] passes, starting with pass [i] in state [σ],
    ends with EXEC refused. *)
Fixpoint all_rejected (n i : nat) (env : nat -> attempt) (key : string)
    (σ : State) : Prop :=
  match n with
  | O => True
  | S n' =>
      fst (Watch (env i) key σ) = Err TxFailedErr /\
      all_rejected n' (S i) env key (snd (Watch (env i) key σ))
  end.

End WithGob.

End RedisStore.

(** A concrete codec: a blob is the sequence of the seven fields, each
    tagged with its kind; decoding refuses any other sequence. *)
Module FieldCodec.

Inductive field :=
  | FString (s : string)
  | FBytes (b : list Byte.byte)
  | FInt (z : Z).

Definition Encode (s : Secret) : option (list field) :=
  Some [FString (ID s); FBytes (EncryptedData s); FInt (MaxViews s);
        FInt (CurrentViews s); FInt (ExpiresAt s); FInt (CreatedAt s);
        FString (Passphrase s)].

Definition Decode (b : list field) : option Secret :=
  match b with
  | [FString id; FBytes data; FInt mv; FInt cv; FInt ex; FInt cr; FString pw] =>
      Some {| ID := id; EncryptedData := data; MaxViews := mv;
              CurrentViews := cv; ExpiresAt := ex; CreatedAt := cr;
              Passphrase := pw |}
  | _ => None
  end.

Definition codec : Gob :=
  {| blob := list field; gob_Encode := Encode; gob_Decode := Decode |}.

End FieldCodec.

(** A record whose counters are Go ints. *)
Definition int_fields (s : Secret) : Prop :=
  Go.is_int (MaxViews s) /\ Go.is_int (CurrentViews s).

(** The spec's liveness predicate, with the comparison the code makes:
    a record is past its deadline when the clock is strictly after it. *)
Definition live (now : Go.Time) (s : Secret) : bool :=
  negb (Go.After now (ExpiresAt s)) && (CurrentViews s <? MaxViews s).

(** Scenario B on the in-process backend: [Save], then four
    [IncrementViews] calls at the given clock readings. *)
Definition scenario_B (secret : MemoryStore.loc) (id : string)
    (n1 n2 n3 n4 : Go.Time) : M MemoryStore.State (list (outcome Z)) :=
  MemoryStore.Save secret ;;
  r1 ← observe (MemoryStore.IncrementViews n1 id);
  r2 ← observe (MemoryStore.IncrementViews n2 id);
  r3 ← observe (MemoryStore.IncrementViews n3 id);
  r4 ← observe (MemoryStore.IncrementViews n4 id);
  mret [r1; r2; r3; r4].

(** ** Fixtures: a three-view secret and the stores that hold it *)

Module Fixtures.

Definition s3 : Secret :=
  {| ID := "abc"; EncryptedData := [Byte.x2a; Byte.x07]; MaxViews := 3;
     CurrentViews := 0; ExpiresAt := 1000; CreatedAt := 5;
     Passphrase := "pw" |}.

(** The same secret with one view left. *)
Definition s3_last : Secret := with_views 2 s3.

(** A secret whose deadline passed before it is saved (at 1000). *)
Definition dead : Secret :=
  {| ID := "old"; EncryptedData := [Byte.x01]; MaxViews := 1;
     CurrentViews := 0; ExpiresAt := 400; CreatedAt := 990;
     Passphrase := "pw" |}.

(** A fresh in-process store in a heap where the caller has built
    [s3] at 1, [s3_last] at 2 and [dead] at 3. *)
Definition mem0 : MemoryStore.State :=
  MemoryStore.NewMemoryStore
    {[ 1%positive := s3; 2%positive := s3_last; 3%positive := dead ]}.

(** [mem0] after [Save] of the secret at 1. *)
Definition mem1 : MemoryStore.State := snd (MemoryStore.Save 1%positive mem0).

(** [mem0] after [Save] of the secret at 2, which has one view left. *)
Definition mem_last : MemoryStore.State := snd (MemoryStore.Save 2%positive mem0).

(** An empty engine, and the engine after [Save s3] at time 10. *)
Definition red0 : @RedisStore.State FieldCodec.codec :=
  {| RedisStore.keys := ∅; RedisStore.watches := 0 |}.

Definition red1 : @RedisStore.State FieldCodec.codec :=
  snd (@RedisStore.Save FieldCodec.codec 10 s3 red0).

(** What [red1] holds under ["secret:abc"]. *)
Definition s3_entry : @RedisStore.entry FieldCodec.codec :=
  @RedisStore.mkEntry FieldCodec.codec
    [FieldCodec.FString "abc"; FieldCodec.FBytes [Byte.x2a; Byte.x07];
     FieldCodec.FInt 3; FieldCodec.FInt 0; FieldCodec.FInt 1000;
     FieldCodec.FInt 5; FieldCodec.FString "pw"]
    (Some 1000).

(** A secret saved with no views to give. *)
Definition spent : Secret :=
  {| ID := "nil"; EncryptedData := []; MaxViews := 0; CurrentViews := 0;
     ExpiresAt := 1000; CreatedAt := 5; Passphrase := "pw" |}.

Definition mem_spent : MemoryStore.State :=
  snd (MemoryStore.Save 1%positive
         (MemoryStore.NewMemoryStore {[ 1%positive := spent ]})).

Definition red_spent : @RedisStore.State FieldCodec.codec :=
  snd (@RedisStore.Save FieldCodec.codec 10 spent red0).

Definition spent_entry : @RedisStore.entry FieldCodec.codec :=
  @RedisStore.mkEntry FieldCodec.codec
    [FieldCodec.FString "nil"; FieldCodec.FBytes [];
     FieldCodec.FInt 0; FieldCodec.FInt 0; FieldCodec.FInt 1000;
     FieldCodec.FInt 5; FieldCodec.FString "pw"]
    (Some 1000).

(** [mem1] after [Save] of the secret at 3, whose deadline is 400. *)
Definition mem2 : MemoryStore.State := snd (MemoryStore.Save 3%positive mem1).

(** The three-view secret with an hour to live, and the engine after
    [Save] of it at time 0; the engine's TTL replies count whole
    seconds. *)
Definition s3_hour : Secret :=
  {| ID := "abc"; EncryptedData := [Byte.x2a; Byte.x07]; MaxViews := 3;
     CurrentViews := 0; ExpiresAt := 3600 * Go.Second; CreatedAt := 5;
     Passphrase := "pw" |}.

Definition red_hour : @RedisStore.State FieldCodec.codec :=
  snd (@RedisStore.Save FieldCodec.codec 0 s3_hour red0).

(** What [red_hour] holds under ["secret:abc"]. *)
Definition s3_hour_entry : @RedisStore.entry FieldCodec.codec :=
  @RedisStore.mkEntry FieldCodec.codec
    [FieldCodec.FString "abc"; FieldCodec.FBytes [Byte.x2a; Byte.x07];
     FieldCodec.FInt 3; FieldCodec.FInt 0; FieldCodec.FInt (3600 * Go.Second);
     FieldCodec.FInt 5; FieldCodec.FString "pw"]
    (Some (3600 * Go.Second)).

(** Every pass loses the race: between its read and its EXEC another
    client rewrites the key with the same record. *)
Definition contended (i : nat) : @RedisStore.attempt FieldCodec.codec :=
  {| RedisStore.att_now := 10 + Z.of_nat i;
     RedisStore.att_rival := Some (Some s3_hour_entry) |}.

(** Two passes lose the race, the third runs undisturbed. *)
Definition contended_twice (i : nat) : @RedisStore.attempt FieldCodec.codec :=
  {| RedisStore.att_now := 10 + Z.of_nat i;
     RedisStore.att_rival := if (i <? 2)%nat then Some (Some s3_hour_entry)
                             else None |}.

End Fixtures.

(** ** Sequences of calls on the in-process backend *)

Module MemoryTrace.
Import MemoryStore.

(** What a client of the store, or the sweeper, can do next.  [OpNew]
    is the caller building a secret at a fresh address ([&models.Secret]);
    an address already in use is left alone. *)
Inductive op :=
  | OpNew (p : loc) (s : Secret)
  | OpSave (p : loc)
  | OpGet (now : Go.Time) (id : string)
  | OpDelete (id : string)
  | OpIncrementViews (now : Go.Time) (id : string)
  | OpCleanup (now : Go.Time)
  | OpClose.

Definition alloc (p : loc) (s : Secret) : M State unit :=
  modify (fun σ => match heap σ !! p with
                   | Some _ => σ
                   | None => set_heap (<[p := s]> (heap σ)) σ
                   end).

Definition run_op (o : op) : M State unit :=
  match o with
  | OpNew p s => alloc p s
  | OpSave p => Save p
  | OpGet now id => Get now id ;; mret tt
  | OpDelete id => Delete id
  | OpIncrementViews now id => IncrementViews now id ;; mret tt
  | OpCleanup now => cleanup now
  | OpClose => Close
  end.

(** The state after a sequence of calls, whatever each one reported. *)
Fixpoint run_all (ops : list op) (σ : State) : State :=
  match ops with
  | [] => σ
  | o :: r => run_all r (snd (run_op o σ))
  end.

(** A state the store can be in: some calls after construction. *)
Definition reachable (σ : State) : Prop :=
  exists h ops, σ = run_all ops (NewMemoryStore h).

(** [IncrementViews] called once per clock reading, outcomes collected. *)
Fixpoint increments (times : list Go.Time) (id : string)
    : M State (list (outcome Z)) :=
  match times with
  | [] => mret []
  | now :: r =>
      o ← observe (IncrementViews now id);
      os ← increments r id;
      mret (o :: os)
  end.

End MemoryTrace.

(** ** Sequences of calls on the remote backend *)

Module RedisTrace.
Import RedisStore.

Section WithGob.

Context `{Gob}.

(** The engine after the passes [i, i+1, ..., i+n-1] of a retry loop. *)
Fixpoint after_passes (n i : nat) (env : nat -> attempt) (key : string)
    (σ : State) : State :=
  match n with
  | O => σ
  | S n' => after_passes n' (S i) env key (snd (Watch (env i) key σ))
  end.

(** [IncrementViews] called once per clock reading with no other client
    around, outcomes collected. *)
Fixpoint increments (times : list Go.Time) (id : string)
    : M State (list (outcome Z)) :=
  match times with
  | [] => mret []
  | now :: r =>
      o ← observe (IncrementViews (fun _ => quiet now) id);
      os ← increments r id;
      mret (o :: os)
  end.

(** Every key the engine holds carries an expiry. *)
Definition all_expiring (σ : State) : Prop :=
  forall key e, keys σ !! key = Some e -> is_Some (deadline e).

End WithGob.

End RedisTrace.

(** ** config/config.go *)

Module config.

Record ServerConfig := mkServer {
  Host : string;
  Port : Z;
  BaseURL : string
}.

Record RedisConfig := mkRedis {
  Addr : string;
  Password : string;
  DB : Z
}.

Record StoreConfig := mkStore {
  Type_ : string;
  Redis : RedisConfig
}.

Record SecretsConfig := mkSecrets {
  DefaultTTL : Go.Duration;
  MaxTTL : Go.Duration;
  DefaultViews : Z;
  MaxViews : Z
}.

Record RateLimitConfig := mkRateLimit {
  Enabled : bool;
  RequestsPerMin : Z;
  RevealPerMin : Z
}.

Record Config := mkConfig {
  Server : ServerConfig;
  Store : StoreConfig;
  Secrets : SecretsConfig;
  RateLimit : RateLimitConfig
}.

(** [time.Hour], in nanoseconds. *)
Definition Hour : Go.Duration := 3600000000000.

Definition Default : Config :=
  {| Server := {| Host := "0.0.0.0"; Port := 8080;
                  BaseURL := "http://localhost:8080" |};
     Store := {| Type_ := "memory";
                 Redis := {| Addr := "localhost:6379"; Password := ""; DB := 0 |} |};
     Secrets := {| DefaultTTL := 1 * Hour; MaxTTL := 24 * Hour;
                   DefaultViews := 1; MaxViews := 10 |};
     RateLimit := {| Enabled := true; RequestsPerMin := 100; RevealPerMin := 20 |} |}.

(** Field assignments of the form [c.Server.Host = v]. *)
Definition set_Server (f : ServerConfig -> ServerConfig) (c : Config) : Config :=
  {| Server := f (Server c); Store := Store c; Secrets := Secrets c;
     RateLimit := RateLimit c |}.
Definition set_Store (f : StoreConfig -> StoreConfig) (c : Config) : Config :=
  {| Server := Server c; Store := f (Store c); Secrets := Secrets c;
     RateLimit := RateLimit c |}.
Definition set_Secrets (f : SecretsConfig -> SecretsConfig) (c : Config) : Config :=
  {| Server := Server c; Store := Store c; Secrets := f (Secrets c);
     RateLimit := RateLimit c |}.
Definition set_RateLimit (f : RateLimitConfig -> RateLimitConfig) (c : Config)
    : Config :=
  {| Server := Server c; Store := Store c; Secrets := Secrets c;
     RateLimit := f (RateLimit c) |}.
Definition set_Redis (f : RedisConfig -> RedisConfig) (s : StoreConfig)
    : StoreConfig :=
  {| Type_ := Type_ s; Redis := f (Redis s) |}.

(** What [Validate] can report. *)
Inductive ValidateError :=
  | InvalidPort (port : Z)
  | BaseURLRequired
  | InvalidStoreType (t : string)
  | RedisAddrRequired
  | DefaultTTLNotPositive
  | MaxTTLBelowDefault
  | DefaultViewsBelowOne
  | MaxViewsBelowDefault.

(** [Validate]; [None] is the [nil] error. *)
Definition Validate (c : Config) : option ValidateError :=
  if (Port (Server c) <? 1) || (65535 <? Port (Server c)) then
    Some (InvalidPort (Port (Server c)))
  else if bool_decide (BaseURL (Server c) = "") then Some BaseURLRequired
  else if bool_decide (Type_ (Store c) <> "memory")
          && bool_decide (Type_ (Store c) <> "redis") then
    Some (InvalidStoreType (Type_ (Store c)))
  else if bool_decide (Type_ (Store c) = "redis")
          && bool_decide (Addr (Redis (Store c)) = "") then
    Some RedisAddrRequired
  else if DefaultTTL (Secrets c) <=? 0 then Some DefaultTTLNotPositive
  else if MaxTTL (Secrets c) <? DefaultTTL (Secrets c) then Some MaxTTLBelowDefault
  else if DefaultViews (Secrets c) <? 1 then Some DefaultViewsBelowOne
  else if MaxViews (Secrets c) <? DefaultViews (Secrets c) then
    Some MaxViewsBelowDefault
  else None.

Section Environment.

(** The process environment ([os.Getenv]: the empty string for a
    variable that is not set), the file system ([os.ReadFile]) and the
    library parsers. *)
Inductive file_result :=
  | FileNotExist
  | FileUnreadable
  | FileData (data : list Byte.byte).

Variable Getenv : string -> string.
Variable ReadFile : string -> file_result.
Variable Atoi : string -> option Z.
Variable ParseDuration : string -> option Go.Duration.
Variable yaml_Unmarshal : list Byte.byte -> Config -> option Config.

(** [if v := os.Getenv(name); v != "" { c = set v c }] *)
Definition env_string (name : string) (set : string -> Config -> Config)
    (c : Config) : Config :=
  let v := Getenv name in
  if bool_decide (v <> "") then set v c else c.

(** The same with a parse in between; a value that does not parse is
    skipped. *)
Definition env_parsed {A} (parse : string -> option A) (name : string)
    (set : A -> Config -> Config) (c : Config) : Config :=
  let v := Getenv name in
  if bool_decide (v <> "") then
    match parse v with
    | Some x => set x c
    | None => c
    end
  else c.

Definition loadFromEnv (c : Config) : Config :=
  let c := env_string "HOST"
             (fun v => set_Server (fun s => {| Host := v; Port := Port s;
                                             BaseURL := BaseURL s |})) c in
  let c := env_parsed Atoi "PORT"
             (fun v => set_Server (fun s => {| Host := Host s; Port := v;
                                             BaseURL := BaseURL s |})) c in
  let c := env_string "BASE_URL"
             (fun v => set_Server (fun s => {| Host := Host s; Port := Port s;
                                             BaseURL := v |})) c in
  let c := env_string "STORE_TYPE"
             (fun v => set_Store (fun s => {| Type_ := v; Redis := Redis s |})) c in
  let c := env_string "REDIS_ADDR"
             (fun v => set_Store (set_Redis (fun r =>
                {| Addr := v; Password := Password r; DB := DB r |}))) c in
  let c := env_string "REDIS_PASSWORD"
             (fun v => set_Store (set_Redis (fun r =>
                {| Addr := Addr r; Password := v; DB := DB r |}))) c in
  let c := env_parsed Atoi "REDIS_DB"
             (fun v => set_Store (set_Redis (fun r =>
                {| Addr := Addr r; Password := Password r; DB := v |}))) c in
  let c := env_parsed ParseDuration "DEFAULT_TTL"
             (fun v => set_Secrets (fun s =>
                {| DefaultTTL := v; MaxTTL := MaxTTL s;
                   DefaultViews := DefaultViews s; MaxViews := MaxViews s |})) c in
  let c := env_parsed ParseDuration "MAX_TTL"
             (fun v => set_Secrets (fun s =>
                {| DefaultTTL := DefaultTTL s; MaxTTL := v;
                   DefaultViews := DefaultViews s; MaxViews := MaxViews s |})) c in
  let c := env_parsed Atoi "DEFAULT_VIEWS"
             (fun v => set_Secrets (fun s =>
                {| DefaultTTL := DefaultTTL s; MaxTTL := MaxTTL s;
                   DefaultViews := v; MaxViews := MaxViews s |})) c in
  let c := env_parsed Atoi "MAX_VIEWS"
             (fun v => set_Secrets (fun s =>
                {| DefaultTTL := DefaultTTL s; MaxTTL := MaxTTL s;
                   DefaultViews := DefaultViews s; MaxViews := v |})) c in
  let c := env_string "RATE_LIMIT_ENABLED"
             (fun v => set_RateLimit (fun r =>
                {| Enabled := bool_decide (v = "true") || bool_decide (v = "1");
                   RequestsPerMin := RequestsPerMin r;
                   RevealPerMin := RevealPerMin r |})) c in
  let c := env_parsed Atoi "RATE_LIMIT_REQUESTS"
             (fun v => set_RateLimit (fun r =>
                {| Enabled := Enabled r; RequestsPerMin := v;
                   RevealPerMin := RevealPerMin r |})) c in
  let c := env_parsed Atoi "RATE_LIMIT_REVEAL"
             (fun v => set_RateLimit (fun r =>
                {| Enabled := Enabled r; RequestsPerMin := RequestsPerMin r;
                   RevealPerMin := v |})) c in
  c.

(** What [Load] can report. *)
Inductive LoadError :=
  | ReadingConfigFile
  | ParsingConfigFile
  | Invalid (e : ValidateError).

(** [loadFromFile]: a file that does not exist is not an error. *)
Definition loadFromFile (path : string) (c : Config) : LoadError + Config :=
  match ReadFile path with
  | FileNotExist => inr c
  | FileUnreadable => inl ReadingConfigFile
  | FileData data =>
      match yaml_Unmarshal data c with
      | Some c' => inr c'
      | None => inl ParsingConfigFile
      end
  end.

Definition Load (path : string) : LoadError + Config :=
  match (if bool_decide (path <> "") then loadFromFile path Default
         else inr Default) with
  | inl e => inl e
  | inr cfg =>
      let cfg := loadFromEnv cfg in
      match Validate cfg with
      | Some e => inl (Invalid e)
      | None => inr cfg
      end
  end.

End Environment.

End config.

(** ** internal/crypto *)

(** [crypto/sha256], [crypto/aes] and [crypto/cipher] are libraries: the
    digest and the AES-GCM seal and open operations are taken as an
    interface.  A key is a 32-byte digest, for which [aes.NewCipher] and
    [cipher.NewGCM] do not fail.  [gcm_Seal] yields the ciphertext with
    its tag; [gcm_Open] yields [None] when authentication fails. *)
Class AEAD := {
  aes_key : Type;
  sha256_Sum256 : list Byte.byte -> aes_key;
  gcm_Seal : aes_key -> list Byte.byte -> list Byte.byte -> list Byte.byte;
  gcm_Open : aes_key -> list Byte.byte -> list Byte.byte -> option (list Byte.byte)
}.

(** Opening with the key and nonce of the seal gives the plaintext back. *)
Definition gcm_opens_sealed `{AEAD} : Prop :=
  forall k nonce plaintext,
    gcm_Open k nonce (gcm_Seal k nonce plaintext) = Some plaintext.

Module crypto.

Section WithAEAD.

Context `{AEAD}.

Definition nonceSize : nat := 12.

Definition deriveKey (passphrase : string) : aes_key :=
  sha256_Sum256 (String.list_byte_of_string passphrase).

(** [Encrypt]; [rnd] is what [rand.Read] put into the nonce buffer, or
    [None] when it failed.  [gcm.Seal(nonce, nonce, plaintext, nil)]
    appends the sealed text to the nonce, and panics on a nonce of the
    wrong size. *)
Definition Encrypt (rnd : option (list Byte.byte)) (plaintext : list Byte.byte)
    (passphrase : string) : outcome (list Byte.byte) :=
  let key := deriveKey passphrase in
  match rnd with
  | None => Err (ErrOther "nonce generation failed")
  | Some nonce =>
      if (length nonce =? nonceSize)%nat
      then Ok (nonce ++ gcm_Seal key nonce plaintext)
      else Panic
  end.

Definition Decrypt (ciphertext : list Byte.byte) (passphrase : string)
    : outcome (list Byte.byte) :=
  if (length ciphertext <? nonceSize)%nat then
    Err (ErrOther "ciphertext too short")
  else
    let key := deriveKey passphrase in
    let nonce := take nonceSize ciphertext in
    let ciphertext := drop nonceSize ciphertext in
    match gcm_Open key nonce ciphertext with
    | Some plaintext => Ok plaintext
    | None => Err (ErrOther "decryption failed")
    end.

End WithAEAD.

End crypto.

(** A toy instance of the interface: the key is the digest input, and
    sealing prepends it as the tag. *)
Module ToyAEAD.

Fixpoint strip (tag text : list Byte.byte) : option (list Byte.byte) :=
  match tag, text with
  | [], _ => Some text
  | a :: tag', b :: text' => if Byte.eqb a b then strip tag' text' else None
  | _ :: _, [] => None
  end.

Definition aead : AEAD :=
  {| aes_key := list Byte.byte;
     sha256_Sum256 := fun b => b;
     gcm_Seal := fun k _ plaintext => k ++ plaintext;
     gcm_Open := fun k _ text => strip k text |}.

End ToyAEAD.

(** ** internal/api: the handlers, over the in-process store *)

Module api.

Definition clamp (val defaultVal maxVal : Z) : Z :=
  if val <=? 0 then defaultVal
  else if maxVal <? val then maxVal
  else val.

Definition clampDuration (val defaultVal maxVal : Go.Duration) : Go.Duration :=
  if val <=? 0 then defaultVal
  else if maxVal <? val then maxVal
  else val.

Record CreateRequest := mkCreateRequest {
  Content : string;
  MaxViews : Z;
  TTLMinutes : Z
}.

Record CreateResponse := mkCreateResponse {
  cr_ID : string;
  cr_URL : string;
  cr_ExpiresAt : Go.Time;
  cr_MaxViews : Z
}.

Record RevealResponse := mkRevealResponse {
  rr_Content : string;
  rr_ViewsRemaining : Z
}.

Record StatusResponse := mkStatusResponse {
  sr_ID : string;
  sr_Exists : bool;
  sr_Expired : bool;
  sr_ViewsRemaining : Z;
  sr_ExpiresAt : option Go.Time
}.

(** What a handler writes: the status code and the JSON payload. *)
Inductive payload :=
  | ErrorResponse (msg : string)
  | Created (r : CreateResponse)
  | Revealed (r : RevealResponse)
  | Status (r : StatusResponse).

Record response := mkResponse {
  status : Z;
  body : payload
}.

Definition StatusOK : Z := 200.
Definition StatusCreated : Z := 201.
Definition StatusBadRequest : Z := 400.
Definition StatusForbidden : Z := 403.
Definition StatusNotFound : Z := 404.
Definition StatusGone : Z := 410.
Definition StatusInternalServerError : Z := 500.

(** [h.error(w, status, message)] *)
Definition error_ (st : Z) (msg : string) : response :=
  {| status := st; body := ErrorResponse msg |}.

Definition handleStoreError (err : error) : response :=
  match err with
  | ErrNotFound => error_ StatusNotFound "secret not found"
  | ErrExpired => error_ StatusGone "secret has expired"
  | ErrMaxViews => error_ StatusGone "secret has reached maximum views"
  | _ => error_ StatusInternalServerError "internal error"
  end.

(** [time.Minute], in nanoseconds. *)
Definition Minute : Go.Duration := 60000000000.

Section WithAEAD.

Context `{AEAD}.

Variable cfg : config.Config.

(** [CreateSecret].  [req] is the decoded body ([None] when it does not
    decode); [id] and [passphrase] are what the generators return; [rnd]
    is the nonce drawn by [Encrypt]; [p] is the address of the new
    [models.Secret]; [now1] and [now2] are the two clock readings. *)
Definition CreateSecret (req : option CreateRequest) (id passphrase : string)
    (rnd : option (list Byte.byte)) (p : MemoryStore.loc)
    (now1 now2 : Go.Time) : M MemoryStore.State response :=
  match req with
  | None => mret (error_ StatusBadRequest "invalid request body")
  | Some req =>
      if bool_decide (Content req = "") then
        mret (error_ StatusBadRequest "content is required")
      else
        let maxViews :=
          clamp (MaxViews req) (config.DefaultViews (config.Secrets cfg))
                (config.MaxViews (config.Secrets cfg)) in
        let ttl :=
          clampDuration (Go.int_wrap (TTLMinutes req * Minute))
                        (config.DefaultTTL (config.Secrets cfg))
                        (config.MaxTTL (config.Secrets cfg)) in
        match crypto.Encrypt rnd (String.list_byte_of_string (Content req)) passphrase with
        | Panic => fun σ => (Panic, σ)
        | Err _ => mret (error_ StatusInternalServerError "encryption failed")
        | Ok encrypted =>
            let secret :=
              {| models.ID := id; models.EncryptedData := encrypted;
                 models.MaxViews := maxViews; models.CurrentViews := 0;
                 models.ExpiresAt := now1 + ttl; models.CreatedAt := now2;
                 models.Passphrase := passphrase |} in
            MemoryTrace.alloc p secret ;;
            r ← observe (MemoryStore.Save p);
            match r with
            | Panic => fun σ => (Panic, σ)
            | Err _ => mret (error_ StatusInternalServerError "failed to save secret")
            | Ok _ =>
                s ← MemoryStore.deref p;
                mret {| status := StatusCreated;
                        body := Created
                          {| cr_ID := id;
                             cr_URL := config.BaseURL (config.Server cfg)
                                       +:+ "/s/" +:+ id +:+ "#" +:+ passphrase;
                             cr_ExpiresAt := models.ExpiresAt s;
                             cr_MaxViews := maxViews |} |}
            end
        end
  end.

(** [RevealSecret]; [now1] is the clock at [Get], [now2] the clock at
    [IncrementViews]. *)
Definition RevealSecret (id passphrase : string) (now1 now2 : Go.Time)
    : M MemoryStore.State response :=
  if bool_decide (passphrase = "") then
    mret (error_ StatusBadRequest "passphrase is required")
  else
    r ← observe (MemoryStore.Get now1 id);
    match r with
    | Panic => fun σ => (Panic, σ)
    | Err err => mret (handleStoreError err)
    | Ok secret =>
        s ← MemoryStore.deref secret;
        if bool_decide (passphrase <> models.Passphrase s) then
          mret (error_ StatusForbidden "invalid passphrase")
        else
          r ← observe (MemoryStore.IncrementViews now2 id);
          match r with
          | Panic => fun σ => (Panic, σ)
          | Err err => mret (handleStoreError err)
          | Ok currentViews =>
              s ← MemoryStore.deref secret;
              match crypto.Decrypt (models.EncryptedData s) passphrase with
              | Ok content =>
                  mret {| status := StatusOK;
                          body := Revealed
                            {| rr_Content := String.string_of_list_byte content;
                               rr_ViewsRemaining :=
                                 Go.int_wrap (models.MaxViews s - currentViews) |} |}
              | _ => mret (error_ StatusInternalServerError "decryption failed")
              end
          end
    end.

Definition GetStatus (id : string) (now : Go.Time) : M MemoryStore.State response :=
  r ← observe (MemoryStore.Get now id);
  match r with
  | Panic => fun σ => (Panic, σ)
  | Err err =>
      mret {| status := StatusOK;
              body := Status {| sr_ID := id; sr_Exists := false;
                                sr_Expired := match err with
                                              | ErrExpired => true
                                              | _ => false
                                              end;
                                sr_ViewsRemaining := 0;
                                sr_ExpiresAt := None |} |}
  | Ok secret =>
      s ← MemoryStore.deref secret;
      mret {| status := StatusOK;
              body := Status {| sr_ID := id; sr_Exists := true;
                                sr_Expired := false;
                                sr_ViewsRemaining :=
                                  Go.int_wrap (models.MaxViews s - models.CurrentViews s);
                                sr_ExpiresAt := Some (models.ExpiresAt s) |} |}
  end.

End WithAEAD.

End api.

(** The conditions [Validate] checks, as a proposition. *)
Definition config_valid (c : config.Config) : Prop :=
  1 <= config.Port (config.Server c) <= 65535 /\
  config.BaseURL (config.Server c) <> "" /\
  (config.Type_ (config.Store c) = "memory" \/
   config.Type_ (config.Store c) = "redis") /\
  (config.Type_ (config.Store c) = "redis" ->
   config.Addr (config.Redis (config.Store c)) <> "") /\
  0 < config.DefaultTTL (config.Secrets c) /\
  config.DefaultTTL (config.Secrets c) <= config.MaxTTL (config.Secrets c) /\
  1 <= config.DefaultViews (config.Secrets c) /\
  config.DefaultViews (config.Secrets c) <= config.MaxViews (config.Secrets c).

(** A process environment with no variable set. *)
Definition empty_env : string -> string := fun _ => "".

(** * Properties *)

(** ** Arithmetic of Go ints and durations *)

Lemma int_wrap_id (z : Z) : Go.is_int z -> Go.int_wrap z = z.
Proof.
  unfold Go.is_int, Go.int_min, Go.int_max, Go.int_wrap. intros Hz.
  rewrite Z.mod_small; lia.
Qed.

Lemma int_succ_below (cv mv : Z) :
  Go.is_int cv -> Go.is_int mv -> cv < mv -> Go.int_wrap (cv + 1) = cv + 1.
Proof.
  unfold Go.is_int. intros Hc Hm Hlt. apply int_wrap_id. unfold Go.is_int.
  unfold Go.int_min, Go.int_max in *. lia.
Qed.

Lemma After_false (now t : Go.Time) : now <= t -> Go.After now t = false.
Proof. unfold Go.After. intros. apply Z.ltb_ge. lia. Qed.

Lemma After_true (now t : Go.Time) : t < now -> Go.After now t = true.
Proof. unfold Go.After. intros. apply Z.ltb_lt. lia. Qed.

Lemma Until_pos (now t : Go.Time) : now < t -> 0 < Go.Until now t.
Proof. unfold Go.Until, Go.Sub, Go.minDuration, Go.maxDuration. lia. Qed.

Lemma Until_nonpos (now t : Go.Time) : t <= now -> Go.Until now t <= 0.
Proof. unfold Go.Until, Go.Sub, Go.minDuration, Go.maxDuration. lia. Qed.

Lemma Until_exact (now t : Go.Time) :
  0 <= t - now <= Go.maxDuration -> Go.Until now t = t - now.
Proof. unfold Go.Until, Go.Sub, Go.minDuration, Go.maxDuration. lia. Qed.

(** The whole-second TTL reply is within about half a second of the
    time left, and positive exactly from half a second on. *)
Lemma ttl_reply_bounds (r : Go.Duration) :
  r - 501000000 < RedisStore.ttl_reply r <= r + 500000000.
Proof.
  unfold RedisStore.ttl_reply, Go.Second, Go.Millisecond.
  Z.to_euclidean_division_equations. lia.
Qed.

Lemma ttl_reply_pos (r : Go.Duration) :
  0 < RedisStore.ttl_reply r <-> 500000000 <= r.
Proof.
  unfold RedisStore.ttl_reply, Go.Second, Go.Millisecond.
  Z.to_euclidean_division_equations. lia.
Qed.

Lemma live_spec (now : Go.Time) (s : Secret) :
  live now s = true <-> now <= ExpiresAt s /\ CurrentViews s < MaxViews s.
Proof.
  unfold live, Go.After. rewrite andb_true_iff, negb_true_iff, Z.ltb_ge, Z.ltb_lt.
  tauto.
Qed.

Lemma field_codec_round_trip (s : Secret) : @gob_round_trip FieldCodec.codec s.
Proof. exists [FieldCodec.FString (ID s); FieldCodec.FBytes (EncryptedData s); FieldCodec.FInt (MaxViews s);
        FieldCodec.FInt (CurrentViews s); FieldCodec.FInt (ExpiresAt s); FieldCodec.FInt (CreatedAt s);
        FieldCodec.FString (Passphrase s)]. split; [reflexivity | by destruct s]. Qed.

(** ** Lemmas on the in-process backend *)

Module MemoryFacts.
Import MemoryStore.

(** Unfold the monadic plumbing of an operation. *)
Ltac unfold_ops :=
  unfold Save, Get, Delete, IncrementViews, Close, cleanup_body,
    deref, map_read, map_assign, map_delete, store_views,
    mbind, M_bind, mret, M_ret, bind, ret, fail, gets, modify, ignore in *;
  simpl in *.

Lemma mem_IncrementViews_live (σ : State) t id p s now :
  secrets σ = Some t -> t !! id = Some p -> heap σ !! p = Some s ->
  int_fields s -> CurrentViews s < MaxViews s -> now <= ExpiresAt s ->
  let v := CurrentViews s + 1 in
  exists σ',
    IncrementViews now id σ = (Ok v, σ') /\
    v <= MaxViews s /\
    heap σ' = <[p := with_views v s]> (heap σ) /\
    secrets σ' = Some (if decide (v = MaxViews s) then delete id t else t).
Proof.
  intros Ht Hid Hp [Hm Hc] Hlt Hnow v.
  assert (Hv : Go.int_wrap (CurrentViews s + 1) = v)
    by (by apply int_succ_below with (mv := MaxViews s)).
  unfold_ops. rewrite Ht, Hid, Hp. rewrite After_false by done.
  destruct (Z.leb_spec (MaxViews s) (CurrentViews s)) as [?|_]; [lia|].
  rewrite Hv.
  assert (Hh : alter (with_views v) p (heap σ) = <[p := with_views v s]> (heap σ)).
  { apply map_eq. intros q. rewrite lookup_alter, lookup_insert.
    destruct (decide (p = q)) as [<-|]; [by rewrite Hp | done]. }
  destruct (Z.leb_spec (MaxViews s) v) as [Hge|Hlt'].
  - eexists. split; [reflexivity|]. simpl. rewrite Ht.
    split; [subst v; lia|]. split; [done|].
    rewrite decide_True by (subst v; lia). done.
  - eexists. split; [reflexivity|]. simpl. rewrite Ht.
    split; [subst v; lia|]. split; [done|].
    rewrite decide_False by lia. done.
Qed.

Lemma Save_open (σ : State) t p s :
  secrets σ = Some t -> heap σ !! p = Some s ->
  Save p σ = (Ok tt, set_secrets (Some (<[ID s := p]> t)) σ).
Proof. intros Ht Hp. unfold_ops. by rewrite Hp, Ht. Qed.

Lemma IncrementViews_absent (σ : State) t id now :
  secrets σ = Some t -> t !! id = None ->
  IncrementViews now id σ = (Err ErrNotFound, σ).
Proof. intros Ht Hid. unfold_ops. by rewrite Ht, Hid. Qed.

Lemma Get_frame (σ : State) now id : snd (Get now id σ) = σ.
Proof.
  unfold_ops. destruct (secrets σ) as [t|]; [|done].
  destruct (t !! id) as [p|]; [|done].
  destruct (heap σ !! p) as [s|]; [|done]. simpl.
  destruct (Go.After now (ExpiresAt s)); [done|].
  destruct (MaxViews s <=? CurrentViews s); done.
Qed.

(** [Get], case by case. *)
Lemma mem_Get_cases (σ : State) now id :
  Get now id σ =
    (match secrets σ ≫= (.!! id) with
     | None => Err ErrNotFound
     | Some p =>
         match heap σ !! p with
         | None => Panic
         | Some s =>
             if Go.After now (ExpiresAt s) then Err ErrExpired
             else if MaxViews s <=? CurrentViews s then Err ErrMaxViews
             else Ok p
         end
     end, σ).
Proof.
  unfold_ops. destruct (secrets σ) as [t|]; simpl; [|done].
  destruct (t !! id) as [p|]; [|done].
  destruct (heap σ !! p) as [s|]; [|done]. simpl.
  destruct (Go.After now (ExpiresAt s)); [done|].
  destruct (MaxViews s <=? CurrentViews s); done.
Qed.

Lemma reclaimable_live now s : reclaimable now s = negb (live now s).
Proof.
  unfold reclaimable, live. rewrite negb_andb, negb_involutive.
  f_equal. rewrite Z.leb_antisym. done.
Qed.

Lemma reclaimable_true now s :
  reclaimable now s = true <->
  ExpiresAt s < now \/ MaxViews s <= CurrentViews s.
Proof.
  unfold reclaimable, Go.After.
  rewrite orb_true_iff, Z.ltb_lt, Z.leb_le. tauto.
Qed.

Lemma for_each_cleanup now (l : list (string * loc)) (σ : State) t :
  secrets σ = Some t ->
  (forall id p, (id, p) ∈ l -> is_Some (heap σ !! p)) ->
  for_each (cleanup_body now) l σ
    = (Ok tt, set_secrets (Some (swept now (heap σ) l t)) σ).
Proof.
  revert σ t. induction l as [|[id p] r IH]; intros σ t Ht Hall.
  - simpl. unfold ret. destruct σ; simpl in *; by subst.
  - destruct (Hall id p) as [s Hs]; [by left|].
    simpl. unfold bind. unfold cleanup_body at 1. unfold_ops.
    rewrite Hs. fold (reclaimable now s).
    destruct (reclaimable now s).
    + simpl. rewrite Ht.
      rewrite (IH (set_secrets (Some (delete id t)) σ) (delete id t)); [done|done|].
      intros id' p' Hin. apply (Hall id' p'). by right.
    + simpl. rewrite (IH σ t Ht); [done|].
      intros id' p' Hin. apply (Hall id' p'). by right.
Qed.

Lemma swept_keep now h l t id :
  (forall p s, (id, p) ∈ l -> h !! p = Some s -> reclaimable now s = false) ->
  (forall id' p, (id', p) ∈ l -> is_Some (h !! p)) ->
  swept now h l t !! id = t !! id.
Proof.
  revert t. induction l as [|[id' p'] r IH]; intros t Hkeep Hall; [done|].
  simpl. destruct (Hall id' p') as [s Hs]; [by left|]. rewrite Hs.
  rewrite IH.
  - destruct (reclaimable now s) eqn:Hr; [|done].
    destruct (decide (id' = id)) as [->|Hne].
    + rewrite (Hkeep p' s) in Hr; [done|by left|done].
    + by rewrite lookup_delete_ne.
  - intros p0 s0 Hin. apply Hkeep. by right.
  - intros id'' p0 Hin. apply (Hall id'' p0). by right.
Qed.

Lemma swept_None now h l t id : t !! id = None -> swept now h l t !! id = None.
Proof.
  revert t. induction l as [|[id' p'] r IH]; intros t Hn; [done|].
  simpl. destruct (h !! p') as [s|]; [|done]. apply IH.
  destruct (reclaimable now s); [|done].
  rewrite lookup_delete. by case_decide.
Qed.

Lemma swept_drop now h l t id p s :
  (id, p) ∈ l -> h !! p = Some s -> reclaimable now s = true ->
  (forall id' p, (id', p) ∈ l -> is_Some (h !! p)) ->
  swept now h l t !! id = None.
Proof.
  revert t. induction l as [|[id' p'] r IH]; intros t Hin Hp Hr Hall.
  - by apply elem_of_nil in Hin.
  - simpl. destruct (Hall id' p') as [s' Hs']; [by left|]. rewrite Hs'.
    apply elem_of_cons in Hin as [[= <- <-]|Hin].
    + rewrite Hp in Hs'. injection Hs' as <-. rewrite Hr.
      apply swept_None, lookup_delete_eq.
    + apply IH; [done|done|done|].
      intros id'' p'' Hin'. apply (Hall id'' p''). by right.
Qed.

(** One sweep over a well-formed open store. *)
Lemma cleanup_spec now (σ : State) t :
  secrets σ = Some t -> wf σ ->
  exists t',
    cleanup now σ = (Ok tt, set_secrets (Some t') σ) /\
    forall id,
      t' !! id =
        match t !! id with
        | Some p =>
            match heap σ !! p with
            | Some s => if reclaimable now s then None else Some p
            | None => None
            end
        | None => None
        end.
Proof.
  intros Ht Hwf.
  assert (Hall : forall id p, (id, p) ∈ map_to_list t -> is_Some (heap σ !! p)).
  { intros id p Hin. apply elem_of_map_to_list in Hin. by apply (Hwf t id p). }
  exists (swept now (heap σ) (map_to_list t) t). split.
  - unfold cleanup, mbind, M_bind, bind, gets. rewrite Ht. simpl.
    by apply for_each_cleanup.
  - intros id. destruct (t !! id) as [p|] eqn:Hid.
    + destruct (Hwf t id p Ht Hid) as [s Hs]. rewrite Hs.
      destruct (reclaimable now s) eqn:Hr.
      * apply (swept_drop now (heap σ) _ t id p s); try done.
        by apply elem_of_map_to_list.
      * rewrite swept_keep; [done| |done].
        intros p' s' Hin Hs'. apply elem_of_map_to_list in Hin.
        rewrite Hid in Hin. injection Hin as <-. congruence.
    + by apply swept_None.
Qed.

(** The table only ever holds allocated pointers: [Save] dereferences
    its argument before storing it, and nothing frees a record. *)
Lemma wf_New h : wf (NewMemoryStore h).
Proof. intros t id p [= <-] Hid. by rewrite lookup_empty in Hid. Qed.

Lemma wf_Save (σ : State) p : wf σ -> wf (snd (Save p σ)).
Proof.
  intros Hwf. unfold_ops. destruct (heap σ !! p) as [s|] eqn:Hp; [|done].
  destruct (secrets σ) as [t|] eqn:Ht; [|done]. simpl.
  intros t' id q [= <-] Hid. simpl.
  rewrite lookup_insert in Hid. case_decide; [|by eapply Hwf].
  injection Hid as <-. by rewrite Hp.
Qed.

Lemma wf_delete (σ : State) id : wf σ -> wf (snd (map_delete id σ)).
Proof.
  intros Hwf. unfold_ops. destruct (secrets σ) as [t|] eqn:Ht; [|done].
  intros t' id' q [= <-] Hid. simpl.
  rewrite lookup_delete in Hid. case_decide; [done|by eapply Hwf].
Qed.

Lemma wf_Delete (σ : State) id : wf σ -> wf (snd (Delete id σ)).
Proof. apply wf_delete. Qed.

Lemma wf_store_views (σ : State) p v : wf σ -> wf (snd (store_views p v σ)).
Proof.
  intros Hwf t id q Ht Hid. simpl in *.
  destruct (Hwf t id q Ht Hid) as [s Hs].
  rewrite lookup_alter. case_decide; subst; rewrite Hs; by eexists.
Qed.

Lemma wf_IncrementViews (σ : State) now id :
  wf σ -> wf (snd (IncrementViews now id σ)).
Proof.
  intros Hwf. unfold IncrementViews, mbind, M_bind, bind, map_read, gets.
  simpl. destruct (match secrets σ with Some t => t !! id | None => None end)
    as [p|]; [|done].
  unfold deref. destruct (heap σ !! p) as [s|]; [|done].
  destruct (Go.After now (ExpiresAt s)).
  { apply (wf_delete σ id Hwf). }
  destruct (MaxViews s <=? CurrentViews s).
  { apply (wf_delete σ id Hwf). }
  pose proof (wf_store_views σ p (Go.int_wrap (CurrentViews s + 1)) Hwf) as Hwf'.
  change (store_views p (Go.int_wrap (CurrentViews s + 1)) σ)
    with (Ok tt, snd (store_views p (Go.int_wrap (CurrentViews s + 1)) σ)).
  cbv beta iota.
  destruct (MaxViews s <=? Go.int_wrap (CurrentViews s + 1)).
  - apply (wf_delete _ id Hwf').
  - exact Hwf'.
Qed.

Lemma wf_Close (σ : State) : wf (snd (Close σ)).
Proof. intros t id p Ht. simpl in Ht. discriminate. Qed.

(** On a closed store the loop of [cleanup] ranges over a nil map. *)
Lemma cleanup_closed now (σ : State) :
  secrets σ = None -> cleanup now σ = (Ok tt, σ).
Proof.
  intros Hn. unfold cleanup, mbind, M_bind, bind, gets. rewrite Hn. simpl.
  by rewrite map_to_list_empty.
Qed.

Lemma wf_cleanup now (σ : State) : wf σ -> wf (snd (cleanup now σ)).
Proof.
  intros Hwf. destruct (secrets σ) as [t|] eqn:Ht.
  - destruct (cleanup_spec now σ t Ht Hwf) as (t' & Hrun & Hlook).
    rewrite Hrun. simpl. intros t0 id p [= <-] Hid. simpl.
    rewrite Hlook in Hid. destruct (t !! id) as [q|] eqn:Hq; [|done].
    destruct (Hwf t id q Ht Hq) as [s Hs]. rewrite Hs in Hid.
    destruct (reclaimable now s); [done|]. injection Hid as <-. by eexists.
  - by rewrite cleanup_closed.
Qed.

End MemoryFacts.

Lemma wf_mem2 : MemoryStore.wf Fixtures.mem2.
Proof. apply MemoryFacts.wf_Save, MemoryFacts.wf_Save, MemoryFacts.wf_New. Qed.

(** ** Lemmas on the remote backend *)

Module RedisFacts.
Import RedisStore.

Ltac unfold_ops :=
  unfold Save, Get, Delete, IncrementViews, Watch, txf, exec, rival_write,
    encode, decode, cmd_Get, cmd_Set, cmd_Del, cmd_TTL,
    mbind, M_bind, mret, M_ret, bind, ret, fail, gets, modify, ignore in *;
  simpl in *.

Section WithGob.
Context `{Gob}.

Lemma served_count_watch now key (σ : State) :
  served now key (count_watch σ) = served now key σ.
Proof. reflexivity. Qed.

Lemma served_Some now key (σ : State) e :
  served now key σ = Some e ->
  keys σ !! key = Some e /\ (forall d, deadline e = Some d -> now < d).
Proof.
  unfold served. destruct (keys σ !! key) as [e'|]; [|done].
  destruct (deadline e') as [d|] eqn:Hd.
  - destruct (Z.leb_spec d now); [done|]. intros [= <-]. split; [done|].
    intros d' Hd'. rewrite Hd in Hd'. injection Hd' as <-. done.
  - intros [= <-]. split; [done|]. intros d' Hd'. congruence.
Qed.

Lemma served_delete now key (σ : State) :
  served now key (set_keys (delete key (keys σ)) σ) = None.
Proof. unfold served. simpl. by rewrite lookup_delete_eq. Qed.

(** One undisturbed pass over a live record. *)
Lemma Watch_live (σ : State) a key e s :
  att_rival a = None ->
  served (att_now a) key σ = Some e -> gob_Decode (value e) = Some s ->
  int_fields s -> CurrentViews s < MaxViews s -> att_now a <= ExpiresAt s ->
  let v := CurrentViews s + 1 in
  forall newData, gob_Encode (with_views v s) = Some newData ->
  exists σ',
    Watch a key σ = (Ok v, σ') /\
    watches σ' = S (watches σ) /\
    keys σ' =
      (if decide (v = MaxViews s) then delete key (keys σ)
       else match deadline e with
            | Some d =>
                let ttl := ttl_reply (d - att_now a) in
                if 0 <? ttl
                then <[key := {| value := newData;
                                 deadline := Some (att_now a + ttl) |}]> (keys σ)
                else keys σ
            | None => keys σ
            end).
Proof.
  intros Hq Hs Hdec [Hm Hc] Hlt Hnow v newData Henc.
  assert (Hv : Go.int_wrap (CurrentViews s + 1) = v)
    by (by apply int_succ_below with (mv := MaxViews s)).
  destruct (served_Some _ _ _ _ Hs) as [Hk Hdl].
  unfold_ops. rewrite served_count_watch, Hs. simpl. rewrite Hdec.
  rewrite After_false by done.
  destruct (Z.leb_spec (MaxViews s) (CurrentViews s)) as [?|_]; [lia|].
  rewrite Hv, Henc. simpl. rewrite ?served_count_watch, ?Hs, Hq.
  destruct (Z.leb_spec (MaxViews s) v) as [Hge|Hlt'].
  - eexists. split; [reflexivity|]. simpl. split; [done|].
    rewrite decide_True by (subst v; lia). done.
  - rewrite decide_False by lia. destruct (deadline e) as [d|] eqn:Hd.
    + destruct (0 <? ttl_reply (d - att_now a)) eqn:Hpos; simpl.
      * rewrite Hpos. eexists. split; [reflexivity|]. done.
      * eexists. split; [reflexivity|]. done.
    + simpl. eexists. split; [reflexivity|]. done.
Qed.

(** With no entry under the key the first pass reports [ErrNotFound],
    whatever the other clients do. *)
Lemma redis_IncrementViews_absent (σ : State) env id :
  keys σ !! secretKey id = None ->
  fst (IncrementViews env id σ) = Err ErrNotFound.
Proof.
  intros Hk. unfold IncrementViews. simpl. unfold_ops.
  unfold served. simpl. rewrite Hk. simpl.
  by destruct (att_rival (env 0%nat)) as [[?|]|].
Qed.

(** The loop returns at the first pass that commits. *)
Lemma retry_live (σ : State) n i env id e s now :
  att_now (env i) = now -> att_rival (env i) = None ->
  served now (secretKey id) σ = Some e -> gob_Decode (value e) = Some s ->
  is_Some (gob_Encode (with_views (CurrentViews s + 1) s)) ->
  int_fields s -> CurrentViews s < MaxViews s -> now <= ExpiresAt s ->
  let v := CurrentViews s + 1 in
  exists σ',
    retry (S n) i env id σ = (Ok v, σ') /\
    v <= MaxViews s /\
    watches σ' = S (watches σ) /\
    (served now (secretKey id) σ' = None <-> v = MaxViews s) /\
    (v = MaxViews s -> keys σ' !! secretKey id = None) /\
    (v < MaxViews s -> forall d, deadline e = Some d -> 0 < ttl_reply (d - now) ->
     exists newData,
       gob_Encode (with_views v s) = Some newData /\
       keys σ' !! secretKey id =
         Some {| value := newData;
                 deadline := Some (now + ttl_reply (d - now)) |}).
Proof.
  intros Hn Hq Hs Hdec [newData Henc] Hi Hlt Hnow v. subst now.
  destruct (Watch_live σ (env i) (secretKey id) e s Hq Hs Hdec Hi Hlt Hnow
              newData Henc) as (σ' & HW & Hw & Hk).
  exists σ'. simpl. rewrite HW.
  split; [done|]. split; [subst v; lia|]. split; [done|].
  destruct (served_Some _ _ _ _ Hs) as [Hke Hdl].
  assert (Hwritten : v < MaxViews s -> forall d, deadline e = Some d ->
            0 < ttl_reply (d - att_now (env i)) ->
            exists newData0,
              gob_Encode (with_views v s) = Some newData0 /\
              keys σ' !! secretKey id =
                Some {| value := newData0;
                        deadline := Some (att_now (env i)
                                          + ttl_reply (d - att_now (env i))) |}).
  { intros Hv d Hd Hpos. exists newData. split; [done|]. rewrite Hk.
    rewrite decide_False by lia. rewrite Hd. simpl.
    destruct (Z.ltb_spec 0 (ttl_reply (d - att_now (env i)))); [|lia].
    by rewrite lookup_insert_eq. }
  split; [|split; [|exact Hwritten]].
  2: { intros Heq. rewrite Hk, decide_True by done. apply lookup_delete_eq. }
  unfold served. rewrite Hk. subst v.
  destruct (decide (CurrentViews s + 1 = MaxViews s)) as [Heq|Hne].
  - rewrite lookup_delete_eq. done.
  - split; [|done]. destruct (deadline e) as [d|] eqn:Hd.
    + specialize (Hdl d eq_refl). simpl.
      destruct (Z.ltb_spec 0 (ttl_reply (d - att_now (env i)))).
      * rewrite lookup_insert_eq. simpl.
        destruct (Z.leb_spec (att_now (env i) + ttl_reply (d - att_now (env i)))
                    (att_now (env i))); [lia|done].
      * rewrite Hke, Hd.
        destruct (Z.leb_spec d (att_now (env i))); [lia|done].
    + rewrite Hke, Hd. done.
Qed.

Lemma redis_Get_cases (σ : State) now id :
  Get now id σ =
    match served now (secretKey id) σ with
    | None => (Err ErrNotFound, σ)
    | Some e =>
        match gob_Decode (value e) with
        | None => (Err (ErrOther "gob: decode"), σ)
        | Some s =>
            if MaxViews s <=? CurrentViews s
            then (Err ErrMaxViews, set_keys (delete (secretKey id) (keys σ)) σ)
            else (Ok s, σ)
        end
    end.
Proof.
  unfold_ops. destruct (served now (secretKey id) σ) as [e|]; [|done]. simpl.
  destruct (gob_Decode (value e)) as [s|]; [|done]. simpl.
  destruct (MaxViews s <=? CurrentViews s); done.
Qed.

Lemma Save_live (σ : State) now s b :
  gob_Encode s = Some b -> now < ExpiresAt s ->
  Save now s σ =
    (Ok tt,
     set_keys (<[secretKey (ID s) :=
                  {| value := b;
                     deadline := Some (now + Go.Until now (ExpiresAt s)) |}]>
                 (keys σ)) σ).
Proof.
  intros Henc Hnow. pose proof (Until_pos now (ExpiresAt s) Hnow) as Hu.
  unfold_ops. rewrite Henc. simpl.
  destruct (Z.leb_spec (Go.Until now (ExpiresAt s)) 0); [lia|].
  destruct (Z.ltb_spec 0 (Go.Until now (ExpiresAt s))); [done|lia].
Qed.

Lemma Watch_watches a key (σ : State) :
  watches (snd (Watch a key σ)) = S (watches σ).
Proof.
  unfold_ops. destruct (served (att_now a) key (count_watch σ)) as [e|]; simpl.
  2: { destruct (att_rival a) as [[?|]|]; done. }
  destruct (gob_Decode (value e)) as [s|]; simpl.
  2: { destruct (att_rival a) as [[?|]|]; done. }
  destruct (Go.After (att_now a) (ExpiresAt s)).
  { destruct (att_rival a) as [[?|]|]; done. }
  destruct (MaxViews s <=? CurrentViews s).
  { destruct (att_rival a) as [[?|]|]; done. }
  destruct (gob_Encode _) as [b|]; simpl.
  2: { destruct (att_rival a) as [[?|]|]; done. }
  destruct (MaxViews s <=? _); [by destruct (att_rival a) as [[?|]|]|].
  destruct (0 <? _); by destruct (att_rival a) as [[?|]|].
Qed.

Lemma retry_watches n i env id (σ : State) :
  (watches (snd (retry n i env id σ)) <= watches σ + n)%nat.
Proof.
  revert i σ. induction n as [|n IH]; intros i σ; [simpl; lia|].
  simpl. pose proof (Watch_watches (env i) (secretKey id) σ) as Hw.
  destruct (Watch (env i) (secretKey id) σ) as [[v|e|] σ1]; simpl in *;
    [lia| |lia].
  destruct e; simpl; try lia.
  specialize (IH (S i) σ1). lia.
Qed.

Lemma retry_all_rejected n i env id (σ : State) :
  all_rejected n i env (secretKey id) σ ->
  fst (retry n i env id σ) = Err TxFailedErr /\
  watches (snd (retry n i env id σ)) = (watches σ + n)%nat.
Proof.
  revert i σ. induction n as [|n IH]; intros i σ Hall.
  - simpl. split; [done|lia].
  - destruct Hall as [Hrej Hrest]. simpl.
    pose proof (Watch_watches (env i) (secretKey id) σ) as Hw.
    destruct (Watch (env i) (secretKey id) σ) as [o σ1]. simpl in *.
    subst o. destruct (IH (S i) σ1 Hrest) as [Hf Hn].
    split; [done|]. lia.
Qed.

End WithGob.

End RedisFacts.

(** Refused passes are skipped: the loop goes on from the state they
    leave. *)
Lemma retry_skips_rejected `{Gob} k n i env id (σ : RedisStore.State) :
  RedisStore.all_rejected k i env (RedisStore.secretKey id) σ ->
  RedisStore.retry (k + n) i env id σ
    = RedisStore.retry n (k + i) env id
        (RedisTrace.after_passes k i env (RedisStore.secretKey id) σ) /\
  RedisStore.watches (RedisTrace.after_passes k i env (RedisStore.secretKey id) σ)
    = (RedisStore.watches σ + k)%nat.
Proof.
  revert i σ. induction k as [|k IH]; intros i σ Hall.
  - simpl. split; [done|lia].
  - destruct Hall as [Hrej Hrest]. simpl.
    pose proof (RedisFacts.Watch_watches (env i) (RedisStore.secretKey id) σ) as Hw.
    destruct (RedisStore.Watch (env i) (RedisStore.secretKey id) σ) as [o σ1].
    simpl in *. subst o. destruct (IH (S i) σ1 Hrest) as [Hr Hn].
    rewrite Hr, Hn. replace (k + S i)%nat with (S (k + i)) by lia.
    split; [done|lia].
Qed.

(** ** C1: consuming a view of a live record *)

(** The claim as worded covers every stored live record.  On the remote
    backend a live record can also see each of its three transactions
    refused: here the key holds a record with no view used and an hour
    to live, another client rewrites the key during every pass, and the
    call returns [TxFailedErr] instead of a count; the stored record is
    as before. *)
Lemma increment_views_contended_counterexample :
  RedisStore.served 12 (RedisStore.secretKey "abc") Fixtures.red_hour
    = Some Fixtures.s3_hour_entry /\
  @gob_Decode FieldCodec.codec (RedisStore.value Fixtures.s3_hour_entry)
    = Some Fixtures.s3_hour /\
  CurrentViews Fixtures.s3_hour < MaxViews Fixtures.s3_hour /\
  12 < ExpiresAt Fixtures.s3_hour /\
  fst (@RedisStore.IncrementViews FieldCodec.codec Fixtures.contended "abc"
         Fixtures.red_hour) = Err TxFailedErr /\
  RedisStore.served 12 (RedisStore.secretKey "abc")
    (snd (@RedisStore.IncrementViews FieldCodec.codec Fixtures.contended "abc"
            Fixtures.red_hour)) = Some Fixtures.s3_hour_entry.
Proof. repeat (split; [reflexivity|]). reflexivity. Qed.

(** C1 (amended). For a stored record with [currentViews < maxViews]
    whose deadline is in the future, [IncrementViews] succeeds and
    returns the old count plus one, which does not exceed [maxViews];
    the stored count becomes that value; the record is gone from
    storage after the call exactly when the returned count equals
    [maxViews], and then every further [IncrementViews] on the id fails
    with [ErrNotFound]: the caller that received [maxViews] was the last
    successful reader.  In-process backend: any open table.  Remote
    backend: one of the three passes goes through, that is, the [k]
    passes before it ([k] at most 2) were refused and no other client
    disturbs pass [k], which reads the record, with a codec that can
    encode the updated record; the updated record is written back
    under the key when the key has at least half a second to live, due
    at the clock plus the engine's whole-second TTL reply. *)
Theorem increment_views_live `{Gob} :
  (forall (σ : MemoryStore.State) t id p s now,
     MemoryStore.secrets σ = Some t -> t !! id = Some p ->
     MemoryStore.heap σ !! p = Some s ->
     int_fields s -> CurrentViews s < MaxViews s -> now < ExpiresAt s ->
     exists σ' t',
       MemoryStore.IncrementViews now id σ = (Ok (CurrentViews s + 1), σ') /\
       CurrentViews s + 1 <= MaxViews s /\
       MemoryStore.heap σ' !! p = Some (with_views (CurrentViews s + 1) s) /\
       MemoryStore.secrets σ' = Some t' /\
       (t' !! id = None <-> CurrentViews s + 1 = MaxViews s) /\
       (CurrentViews s + 1 = MaxViews s ->
        forall now', MemoryStore.IncrementViews now' id σ' = (Err ErrNotFound, σ'))) /\
  (forall (k : nat) (σ : RedisStore.State) env id e s now,
     (k <= 2)%nat ->
     RedisStore.all_rejected k 0 env (RedisStore.secretKey id) σ ->
     RedisStore.att_now (env k) = now ->
     RedisStore.att_rival (env k) = None ->
     RedisStore.served now (RedisStore.secretKey id)
       (RedisTrace.after_passes k 0 env (RedisStore.secretKey id) σ) = Some e ->
     gob_Decode (RedisStore.value e) = Some s ->
     is_Some (gob_Encode (with_views (CurrentViews s + 1) s)) ->
     int_fields s -> CurrentViews s < MaxViews s -> now < ExpiresAt s ->
     exists σ',
       RedisStore.IncrementViews env id σ = (Ok (CurrentViews s + 1), σ') /\
       CurrentViews s + 1 <= MaxViews s /\
       (RedisStore.served now (RedisStore.secretKey id) σ' = None
        <-> CurrentViews s + 1 = MaxViews s) /\
       (CurrentViews s + 1 = MaxViews s ->
        forall env', fst (RedisStore.IncrementViews env' id σ') = Err ErrNotFound) /\
       (CurrentViews s + 1 < MaxViews s ->
        forall d, RedisStore.deadline e = Some d -> 500000000 <= d - now ->
        exists newData,
          gob_Encode (with_views (CurrentViews s + 1) s) = Some newData /\
          RedisStore.keys σ' !! RedisStore.secretKey id =
            Some {| RedisStore.value := newData;
                    RedisStore.deadline :=
                      Some (now + RedisStore.ttl_reply (d - now)) |})).
Proof.
  split.
  - intros σ t id p s now Ht Hid Hp Hi Hlt Hnow.
    destruct (MemoryFacts.mem_IncrementViews_live σ t id p s now Ht Hid Hp Hi Hlt)
      as (σ' & Hrun & Hle & Hheap & Hsec); [lia|].
    exists σ'. eexists. split; [exact Hrun|]. split; [exact Hle|].
    split; [by rewrite Hheap, lookup_insert_eq|].
    split; [exact Hsec|]. destruct (decide _) as [Heq|Hne].
    + split; [by rewrite lookup_delete_eq|]. intros _ now'.
      apply (MemoryFacts.IncrementViews_absent σ' _ id now' Hsec).
      apply lookup_delete_eq.
    + rewrite Hid. split; [done|]. intros; contradiction.
  - intros k σ env id e s now Hk Hall Hn Hq Hs Hdec Henc Hi Hlt Hnow.
    assert (Hskip : RedisStore.IncrementViews env id σ =
              RedisStore.retry (S (2 - k)) k env id
                (RedisTrace.after_passes k 0 env (RedisStore.secretKey id) σ)).
    { unfold RedisStore.IncrementViews.
      replace 3%nat with (k + S (2 - k))%nat by lia.
      destruct (retry_skips_rejected k (S (2 - k)) 0 env id σ Hall) as [-> _].
      by replace (k + 0)%nat with k by lia. }
    destruct (RedisFacts.retry_live _ (2 - k) k env id e s now Hn Hq Hs Hdec
                Henc Hi Hlt) as (σ' & Hrun & Hle & _ & Hiff & Hgone & Hwritten);
      [lia|].
    exists σ'. split; [by rewrite Hskip|]. split; [exact Hle|].
    split; [exact Hiff|].
    split.
    + intros Heq env'. apply RedisFacts.redis_IncrementViews_absent. by apply Hgone.
    + intros Hv d Hd Hleft. apply (Hwritten Hv d Hd). by apply ttl_reply_pos.
Qed.

Lemma increment_views_live_witness :
  (exists σ' t',
     MemoryStore.IncrementViews 10 "abc" Fixtures.mem1 = (Ok 1, σ') /\
     1 <= 3 /\
     MemoryStore.heap σ' !! 1%positive = Some (with_views 1 Fixtures.s3) /\
     MemoryStore.secrets σ' = Some t' /\
     (t' !! "abc" = None <-> 1 = 3) /\
     (1 = 3 -> forall now',
        MemoryStore.IncrementViews now' "abc" σ' = (Err ErrNotFound, σ'))) /\
  (exists σ' t',
     MemoryStore.IncrementViews 10 "abc" Fixtures.mem_last = (Ok 3, σ') /\
     3 <= 3 /\
     MemoryStore.heap σ' !! 2%positive = Some (with_views 3 Fixtures.s3_last) /\
     MemoryStore.secrets σ' = Some t' /\
     (t' !! "abc" = None <-> 3 = 3) /\
     (3 = 3 -> forall now',
        MemoryStore.IncrementViews now' "abc" σ' = (Err ErrNotFound, σ'))) /\
  (exists σ',
     @RedisStore.IncrementViews FieldCodec.codec Fixtures.contended_twice
       "abc" Fixtures.red_hour = (Ok 1, σ') /\
     1 <= 3 /\
     (RedisStore.served 12 (RedisStore.secretKey "abc") σ' = None <-> 1 = 3) /\
     (1 = 3 -> forall env',
        fst (@RedisStore.IncrementViews FieldCodec.codec env' "abc" σ')
          = Err ErrNotFound) /\
     (1 < 3 ->
      forall d, Some (3600 * Go.Second) = Some d -> 500000000 <= d - 12 ->
      exists newData,
        @gob_Encode FieldCodec.codec (with_views 1 Fixtures.s3_hour)
          = Some newData /\
        RedisStore.keys σ' !! RedisStore.secretKey "abc" =
          Some {| RedisStore.value := newData;
                  RedisStore.deadline :=
                    Some (12 + RedisStore.ttl_reply (d - 12)) |})).
Proof.
  destruct (@increment_views_live FieldCodec.codec) as [Hm Hr].
  split; [|split].
  - apply (Hm Fixtures.mem1 {[ "abc" := 1%positive ]} "abc" 1%positive
              Fixtures.s3 10); try reflexivity.
    split; unfold Go.is_int, Go.int_min, Go.int_max; simpl; lia.
  - apply (Hm Fixtures.mem_last {[ "abc" := 2%positive ]} "abc" 2%positive
              Fixtures.s3_last 10); try reflexivity.
    split; unfold Go.is_int, Go.int_min, Go.int_max; simpl; lia.
  - apply (Hr 2%nat Fixtures.red_hour Fixtures.contended_twice "abc"
              Fixtures.s3_hour_entry Fixtures.s3_hour 12).
    + lia.
    + vm_compute. repeat split.
    + reflexivity.
    + reflexivity.
    + vm_compute. reflexivity.
    + reflexivity.
    + eexists; reflexivity.
    + split; unfold Go.is_int, Go.int_min, Go.int_max; simpl; lia.
    + simpl. lia.
    + vm_compute. reflexivity.
Defined.

(** ** C4: three views, then a fourth call *)

(** The scenario as the specification words it, at the three-view
    fixture: the fourth call would report [ErrMaxViews]. *)
Lemma scenario_B_fourth_call_counterexample :
  fst (scenario_B 1%positive "abc" 10 20 30 40 Fixtures.mem0)
    <> Ok [Ok 1; Ok 2; Ok 3; Err ErrMaxViews]
  /\ fst (scenario_B 1%positive "abc" 10 20 30 40 Fixtures.mem0)
    = Ok [Ok 1; Ok 2; Ok 3; Err ErrNotFound].
Proof. split; [intros Hc; vm_compute in Hc; discriminate | reflexivity]. Qed.

(** C4 (amended). For a record saved with [maxViews = 3], no views
    consumed and a deadline not yet passed at the first three calls,
    three sequential [IncrementViews] calls return 1, 2, 3 in order; the
    third removes the record, so the fourth call returns [ErrNotFound],
    and the record is absent from the table afterwards. *)
Theorem scenario_B_sequential (σ : MemoryStore.State) t p s n1 n2 n3 n4 :
  MemoryStore.secrets σ = Some t ->
  MemoryStore.heap σ !! p = Some s ->
  MaxViews s = 3 -> CurrentViews s = 0 ->
  n1 <= ExpiresAt s -> n2 <= ExpiresAt s -> n3 <= ExpiresAt s ->
  exists σ' t',
    scenario_B p (ID s) n1 n2 n3 n4 σ
      = (Ok [Ok 1; Ok 2; Ok 3; Err ErrNotFound], σ') /\
    MemoryStore.secrets σ' = Some t' /\ t' !! ID s = None.
Proof.
  intros Ht Hp Hmv Hcv H1 H2 H3.
  assert (Hint : forall v, 0 <= v <= 3 -> int_fields (with_views v s)).
  { intros v Hv. split; simpl; unfold Go.is_int, Go.int_min, Go.int_max; lia. }
  unfold scenario_B, observe, mbind, M_bind, bind, mret, M_ret, ret.
  rewrite (MemoryFacts.Save_open σ t p s Ht Hp).
  set (σ0 := MemoryStore.set_secrets _ σ).
  destruct (MemoryFacts.mem_IncrementViews_live σ0 (<[ID s := p]> t) (ID s) p s n1)
    as (σ1 & R1 & _ & Hh1 & Hs1);
    [done | apply lookup_insert_eq | done | | lia | done |].
  { destruct s; simpl in *; subst. apply (Hint 0). lia. }
  rewrite Hcv in R1, Hh1. rewrite Hcv, Hmv in Hs1. simpl in R1, Hh1, Hs1.
  rewrite R1. simpl.
  destruct (MemoryFacts.mem_IncrementViews_live σ1 (<[ID s := p]> t) (ID s) p
              (with_views 1 s) n2)
    as (σ2 & R2 & _ & Hh2 & Hs2);
    [done | apply lookup_insert_eq | by rewrite Hh1, lookup_insert_eq
    | apply Hint; lia | simpl; lia | done |].
  simpl in R2, Hh2, Hs2. rewrite Hmv in Hs2. simpl in Hs2.
  rewrite R2. simpl.
  destruct (MemoryFacts.mem_IncrementViews_live σ2 (<[ID s := p]> t) (ID s) p
              (with_views 2 s) n3)
    as (σ3 & R3 & _ & Hh3 & Hs3);
    [done | apply lookup_insert_eq | by rewrite Hh2, lookup_insert_eq
    | apply Hint; lia | simpl; lia | done |].
  simpl in R3, Hh3, Hs3. rewrite Hmv in Hs3. simpl in Hs3.
  rewrite R3. simpl.
  rewrite (MemoryFacts.IncrementViews_absent σ3 _ (ID s) n4 Hs3)
    by apply lookup_delete_eq.
  simpl. exists σ3. eexists. split; [reflexivity|]. split; [exact Hs3|].
  apply lookup_delete_eq.
Qed.

Lemma scenario_B_sequential_witness :
  exists σ' t',
    scenario_B 1%positive "abc" 10 20 30 40 Fixtures.mem0
      = (Ok [Ok 1; Ok 2; Ok 3; Err ErrNotFound], σ') /\
    MemoryStore.secrets σ' = Some t' /\ t' !! "abc" = None.
Proof.
  apply (scenario_B_sequential Fixtures.mem0 ∅ 1%positive Fixtures.s3 10 20 30 40);
    try reflexivity; simpl; lia.
Defined.

(** ** C9: reads and eviction *)

(** C9. [MemoryStore.Get] leaves the whole state (table and heap) as it
    found it, whatever it reports, so the in-process backend never
    deletes on a read.  [RedisStore.Get] on a key that holds an
    exhausted record reports [ErrMaxViews] and sends a delete for that
    key: the state it leaves is the one [Delete] leaves, and what
    [Delete] reports is dropped.  On every other read the remote [Get]
    leaves the engine as it found it. *)
Theorem get_frame_and_eviction `{Gob} :
  (forall (σ : MemoryStore.State) now id,
     snd (MemoryStore.Get now id σ) = σ) /\
  (forall (σ : RedisStore.State) now id e s,
     RedisStore.served now (RedisStore.secretKey id) σ = Some e ->
     gob_Decode (RedisStore.value e) = Some s ->
     MaxViews s <= CurrentViews s ->
     fst (RedisStore.Get now id σ) = Err ErrMaxViews /\
     snd (RedisStore.Get now id σ) = snd (RedisStore.Delete id σ) /\
     RedisStore.keys σ !! RedisStore.secretKey id = Some e) /\
  (forall (σ : RedisStore.State) now id,
     (forall e s,
        RedisStore.served now (RedisStore.secretKey id) σ = Some e ->
        gob_Decode (RedisStore.value e) = Some s ->
        CurrentViews s < MaxViews s) ->
     snd (RedisStore.Get now id σ) = σ).
Proof.
  split; [|split].
  - apply MemoryFacts.Get_frame.
  - intros σ now id e s Hs Hdec Hle.
    rewrite RedisFacts.redis_Get_cases, Hs, Hdec.
    destruct (Z.leb_spec (MaxViews s) (CurrentViews s)) as [_|?]; [|lia].
    split; [done|]. split; [done|].
    by destruct (RedisFacts.served_Some _ _ _ _ Hs).
  - intros σ now id Hlive. rewrite RedisFacts.redis_Get_cases.
    destruct (RedisStore.served now (RedisStore.secretKey id) σ) as [e|]; [|done].
    destruct (gob_Decode (RedisStore.value e)) as [s|] eqn:Hdec; [|done].
    specialize (Hlive e s eq_refl Hdec).
    destruct (Z.leb_spec (MaxViews s) (CurrentViews s)); [lia|done].
Qed.

Lemma get_frame_and_eviction_witness :
  (MemoryStore.Get 10 "nil" Fixtures.mem_spent
     = (Err ErrMaxViews, Fixtures.mem_spent)) /\
  (fst (@RedisStore.Get FieldCodec.codec 20 "nil" Fixtures.red_spent)
     = Err ErrMaxViews /\
   snd (@RedisStore.Get FieldCodec.codec 20 "nil" Fixtures.red_spent)
     = snd (@RedisStore.Delete FieldCodec.codec "nil" Fixtures.red_spent) /\
   RedisStore.keys Fixtures.red_spent !! RedisStore.secretKey "nil"
     = Some Fixtures.spent_entry) /\
  snd (@RedisStore.Get FieldCodec.codec 20 "abc" Fixtures.red1) = Fixtures.red1.
Proof.
  destruct (@get_frame_and_eviction FieldCodec.codec) as (Hm & Hr & Hf).
  split; [|split].
  - rewrite (surjective_pairing (MemoryStore.Get 10 "nil" Fixtures.mem_spent)).
    rewrite (Hm Fixtures.mem_spent 10 "nil"). reflexivity.
  - apply (Hr Fixtures.red_spent 20 "nil" Fixtures.spent_entry Fixtures.spent);
      try reflexivity.
  - apply (Hf Fixtures.red1 20 "abc"). intros e s [= <-] [= <-]. reflexivity.
Defined.

(** ** C10: the store after [Close] *)

(** C10. [Close] succeeds and leaves the table nil.  From then on [Get]
    and [IncrementViews] report [ErrNotFound] and [Delete] succeeds, all
    without touching the state, while [Save] panics. *)
Theorem after_close (σ : MemoryStore.State) now id (secret : MemoryStore.loc) :
  let σc := snd (MemoryStore.Close σ) in
  fst (MemoryStore.Close σ) = Ok tt /\
  MemoryStore.secrets σc = None /\
  MemoryStore.cancelled σc = true /\
  MemoryStore.Get now id σc = (Err ErrNotFound, σc) /\
  MemoryStore.IncrementViews now id σc = (Err ErrNotFound, σc) /\
  MemoryStore.Delete id σc = (Ok tt, σc) /\
  MemoryStore.Save secret σc = (Panic, σc).
Proof.
  simpl. repeat split.
  unfold MemoryStore.Save, MemoryStore.deref, MemoryStore.map_assign,
    mbind, M_bind, bind. simpl.
  destruct (MemoryStore.heap σ !! secret); reflexivity.
Qed.

(** ** C6: the periodic sweep *)

(** C6. A tick of the sweeper on an open store removes from the table
    every record that is past its deadline or has no view left, keeps
    every live record under its id, changes no record, and adds no entry;
    the store it leaves is again open and well-formed, so the same holds
    for every later tick.  In particular a record whose deadline lies one
    tick interval before the tick is gone after that tick. *)
Theorem sweep_tick (σ : MemoryStore.State) t now :
  MemoryStore.secrets σ = Some t -> MemoryStore.wf σ ->
  exists σ' t',
    MemoryStore.cleanupLoop [MemoryStore.Tick now] σ = (Ok tt, σ') /\
    MemoryStore.heap σ' = MemoryStore.heap σ /\
    MemoryStore.secrets σ' = Some t' /\
    MemoryStore.wf σ' /\
    (forall id p s,
       t !! id = Some p -> MemoryStore.heap σ !! p = Some s ->
       (ExpiresAt s < now \/ MaxViews s <= CurrentViews s -> t' !! id = None) /\
       (now <= ExpiresAt s /\ CurrentViews s < MaxViews s -> t' !! id = Some p)) /\
    (forall id, t !! id = None -> t' !! id = None) /\
    (forall id p s interval,
       0 < interval -> t !! id = Some p -> MemoryStore.heap σ !! p = Some s ->
       ExpiresAt s = now - interval -> t' !! id = None).
Proof.
  intros Ht Hwf.
  destruct (MemoryFacts.cleanup_spec now σ t Ht Hwf) as (t' & Hrun & Hlook).
  exists (MemoryStore.set_secrets (Some t') σ), t'.
  assert (Hgone : forall id p s,
    t !! id = Some p -> MemoryStore.heap σ !! p = Some s ->
    ExpiresAt s < now \/ MaxViews s <= CurrentViews s -> t' !! id = None).
  { intros id p s Hid Hp Hr. rewrite Hlook, Hid, Hp.
    apply MemoryFacts.reclaimable_true in Hr. by rewrite Hr. }
  split.
  { simpl. unfold mbind, M_bind, bind. by rewrite Hrun. }
  split; [done|]. split; [done|].
  split.
  { pose proof (MemoryFacts.wf_cleanup now σ Hwf) as Hwf'.
    by rewrite Hrun in Hwf'. }
  split; [|split].
  - intros id p s Hid Hp. split; [by apply (Hgone id p s)|].
    intros [Hnow Hv]. rewrite Hlook, Hid, Hp.
    destruct (MemoryStore.reclaimable now s) eqn:Hr; [|done].
    apply MemoryFacts.reclaimable_true in Hr. lia.
  - intros id Hid. by rewrite Hlook, Hid.
  - intros id p s interval Hpos Hid Hp Hexp.
    apply (Hgone id p s Hid Hp). left. lia.
Qed.

Lemma sweep_tick_witness :
  exists σ' t',
    MemoryStore.cleanupLoop [MemoryStore.Tick 430] Fixtures.mem2 = (Ok tt, σ') /\
    MemoryStore.secrets σ' = Some t' /\
    t' !! "old" = None /\ t' !! "abc" = Some 1%positive.
Proof.
  destruct (sweep_tick Fixtures.mem2
              {[ "abc" := 1%positive; "old" := 3%positive ]} 430)
    as (σ' & t' & Hrun & _ & Hsec & _ & Hrec & _ & Hint);
    [reflexivity | apply wf_mem2 |].
  exists σ', t'. split; [exact Hrun|]. split; [exact Hsec|]. split.
  - apply (Hint "old" 3%positive Fixtures.dead 30); [lia | reflexivity..].
  - apply (Hrec "abc" 1%positive Fixtures.s3); [reflexivity | reflexivity |].
    simpl. lia.
Defined.

(** ** C5: what [MemoryStore.Get] hands out *)

(** C5 (what the code does). [MemoryStore.Get] on a live record returns
    the very pointer the table holds.  A later successful
    [IncrementViews] on the same id writes through that pointer: the
    record the caller got from [Get] now shows one more view, its other
    fields unchanged. *)
Theorem memory_get_returns_alias (σ : MemoryStore.State) t id p s now now' :
  MemoryStore.secrets σ = Some t -> t !! id = Some p ->
  MemoryStore.heap σ !! p = Some s ->
  int_fields s -> CurrentViews s < MaxViews s ->
  now <= ExpiresAt s -> now' <= ExpiresAt s ->
  exists σ',
    MemoryStore.Get now id σ = (Ok p, σ) /\
    MemoryStore.IncrementViews now' id σ = (Ok (CurrentViews s + 1), σ') /\
    MemoryStore.heap σ' !! p = Some (with_views (CurrentViews s + 1) s) /\
    CurrentViews <$> MemoryStore.heap σ' !! p
      <> CurrentViews <$> MemoryStore.heap σ !! p.
Proof.
  intros Ht Hid Hp Hi Hlt Hnow Hnow'.
  destruct (MemoryFacts.mem_IncrementViews_live σ t id p s now' Ht Hid Hp Hi Hlt Hnow')
    as (σ' & Hrun & _ & Hh & _).
  exists σ'. split; [|split; [exact Hrun|]].
  - rewrite MemoryFacts.mem_Get_cases, Ht. simpl. rewrite Hid, Hp.
    rewrite After_false by done.
    destruct (Z.leb_spec (MaxViews s) (CurrentViews s)); [lia|done].
  - rewrite Hh, lookup_insert_eq, Hp. split; [done|]. simpl. intros [=]. lia.
Qed.

Lemma memory_get_returns_alias_witness :
  exists σ',
    MemoryStore.Get 10 "abc" Fixtures.mem1 = (Ok 1%positive, Fixtures.mem1) /\
    MemoryStore.IncrementViews 20 "abc" Fixtures.mem1 = (Ok 1, σ') /\
    MemoryStore.heap σ' !! 1%positive = Some (with_views 1 Fixtures.s3) /\
    CurrentViews <$> MemoryStore.heap σ' !! 1%positive
      <> CurrentViews <$> MemoryStore.heap Fixtures.mem1 !! 1%positive.
Proof.
  apply (memory_get_returns_alias Fixtures.mem1 {[ "abc" := 1%positive ]} "abc"
           1%positive Fixtures.s3 10 20); try reflexivity; try (simpl; lia).
  split; unfold Go.is_int, Go.int_min, Go.int_max; simpl; lia.
Defined.

(** ** C2: saving a secret whose deadline has passed *)

(** At the in-process backend, [Save] of a secret whose deadline (400)
    is long past stores it and reports success. *)
Lemma memory_save_accepts_expired :
  ExpiresAt Fixtures.dead < 1000 /\
  MemoryStore.heap Fixtures.mem1 !! 3%positive = Some Fixtures.dead /\
  fst (MemoryStore.Save 3%positive Fixtures.mem1) = Ok tt /\
  fst (MemoryStore.Save 3%positive Fixtures.mem1) <> Err ErrExpired /\
  MemoryStore.secrets (snd (MemoryStore.Save 3%positive Fixtures.mem1))
    ≫= (.!! "old") = Some 3%positive.
Proof. repeat split; try reflexivity; try discriminate; simpl; lia. Qed.

(** C2 (what the code does). Remote backend: [Save] of a secret whose
    deadline is not after the clock writes nothing and fails, with
    [ErrExpired] whenever the record can be encoded.  In-process backend:
    [Save] has no deadline check; on an open store it stores the pointer
    and succeeds, whatever the deadline.  In any state in which an id
    leads to a record whose deadline is strictly before the clock, [Get]
    and [IncrementViews] both report [ErrExpired], so the record is never
    handed out. *)
Theorem save_expired `{Gob} :
  (forall (σ : RedisStore.State) now s,
     ExpiresAt s <= now ->
     snd (RedisStore.Save now s σ) = σ /\
     (forall u, fst (RedisStore.Save now s σ) <> Ok u) /\
     (is_Some (gob_Encode s) -> fst (RedisStore.Save now s σ) = Err ErrExpired)) /\
  (forall (σ : MemoryStore.State) t p s,
     MemoryStore.secrets σ = Some t -> MemoryStore.heap σ !! p = Some s ->
     MemoryStore.Save p σ
       = (Ok tt, MemoryStore.set_secrets (Some (<[ID s := p]> t)) σ)) /\
  (forall (σ : MemoryStore.State) id p s now,
     MemoryStore.secrets σ ≫= (.!! id) = Some p ->
     MemoryStore.heap σ !! p = Some s ->
     ExpiresAt s < now ->
     MemoryStore.Get now id σ = (Err ErrExpired, σ) /\
     fst (MemoryStore.IncrementViews now id σ) = Err ErrExpired).
Proof.
  split; [|split].
  - intros σ now s Hexp. RedisFacts.unfold_ops.
    destruct (gob_Encode s) as [b|]; simpl.
    + pose proof (Until_nonpos now (ExpiresAt s) Hexp) as Hu.
      destruct (Z.leb_spec (Go.Until now (ExpiresAt s)) 0); [|lia].
      split; [done|]. split; [discriminate|done].
    + split; [done|]. split; [discriminate|]. intros [? [=]].
  - intros σ t p s Ht Hp. by apply MemoryFacts.Save_open.
  - intros σ id p s now Hid Hp Hexp. split.
    + rewrite MemoryFacts.mem_Get_cases, Hid, Hp. by rewrite After_true.
    + destruct (MemoryStore.secrets σ) as [t|] eqn:Ht; [|done]. simpl in Hid.
      MemoryFacts.unfold_ops. rewrite Ht, Hid, Hp. simpl.
      by rewrite After_true.
Qed.

Lemma save_expired_witness :
  (snd (@RedisStore.Save FieldCodec.codec 1000 Fixtures.dead Fixtures.red1)
     = Fixtures.red1 /\
   fst (@RedisStore.Save FieldCodec.codec 1000 Fixtures.dead Fixtures.red1)
     = Err ErrExpired) /\
  MemoryStore.Save 3%positive Fixtures.mem1 = (Ok tt, Fixtures.mem2) /\
  MemoryStore.Get 1000 "old" Fixtures.mem2 = (Err ErrExpired, Fixtures.mem2) /\
  fst (MemoryStore.IncrementViews 1000 "old" Fixtures.mem2) = Err ErrExpired.
Proof.
  destruct (@save_expired FieldCodec.codec) as (Hr & Hs & Hg).
  split; [|split].
  - destruct (Hr Fixtures.red1 1000 Fixtures.dead) as (H1 & _ & H3); [simpl; lia|].
    split; [exact H1|]. apply H3. eexists; reflexivity.
  - rewrite (Hs Fixtures.mem1 {[ "abc" := 1%positive ]} 3%positive Fixtures.dead);
      reflexivity.
  - apply (Hg Fixtures.mem2 "old" 3%positive Fixtures.dead 1000);
      [reflexivity | reflexivity | simpl; lia].
Defined.

(** ** C3: the outcomes of [Get] *)

(** The claim at the instant of the deadline: the clock reads exactly
    [expiresAt] (1000), and the in-process [Get] still hands the record
    out instead of reporting [ErrExpired]. *)
Lemma get_at_deadline_counterexample :
  MemoryStore.secrets Fixtures.mem1 ≫= (.!! "abc") = Some 1%positive /\
  MemoryStore.heap Fixtures.mem1 !! 1%positive = Some Fixtures.s3 /\
  ExpiresAt Fixtures.s3 <= 1000 /\
  MemoryStore.Get 1000 "abc" Fixtures.mem1 = (Ok 1%positive, Fixtures.mem1) /\
  fst (MemoryStore.Get 1000 "abc" Fixtures.mem1) <> Err ErrExpired.
Proof. repeat split; try reflexivity; try discriminate; simpl; lia. Qed.

(** C3 (amended). In-process [Get]: [ErrNotFound] when the table has no
    entry at the id; otherwise [ErrExpired] when the clock is strictly
    after [expiresAt]; otherwise [ErrMaxViews] when
    [currentViews >= maxViews]; otherwise the record.  Remote [Get]:
    [ErrNotFound] when the engine serves nothing at the key (never set,
    deleted, or its TTL ran out); otherwise [ErrMaxViews] when the
    decoded record has [currentViews >= maxViews]; otherwise the decoded
    record, whatever its [expiresAt] -- the remote [Get] never reports
    [ErrExpired]. *)
Theorem get_outcomes `{Gob} :
  (forall (σ : MemoryStore.State) now id,
     MemoryStore.secrets σ ≫= (.!! id) = None ->
     MemoryStore.Get now id σ = (Err ErrNotFound, σ)) /\
  (forall (σ : MemoryStore.State) now id p s,
     MemoryStore.secrets σ ≫= (.!! id) = Some p ->
     MemoryStore.heap σ !! p = Some s ->
     (ExpiresAt s < now -> MemoryStore.Get now id σ = (Err ErrExpired, σ)) /\
     (now <= ExpiresAt s -> MaxViews s <= CurrentViews s ->
      MemoryStore.Get now id σ = (Err ErrMaxViews, σ)) /\
     (now <= ExpiresAt s -> CurrentViews s < MaxViews s ->
      MemoryStore.Get now id σ = (Ok p, σ))) /\
  (forall (σ : RedisStore.State) now id,
     RedisStore.served now (RedisStore.secretKey id) σ = None ->
     RedisStore.Get now id σ = (Err ErrNotFound, σ)) /\
  (forall (σ : RedisStore.State) now id e s,
     RedisStore.served now (RedisStore.secretKey id) σ = Some e ->
     gob_Decode (RedisStore.value e) = Some s ->
     (MaxViews s <= CurrentViews s ->
      fst (RedisStore.Get now id σ) = Err ErrMaxViews) /\
     (CurrentViews s < MaxViews s ->
      RedisStore.Get now id σ = (Ok s, σ)) /\
     fst (RedisStore.Get now id σ) <> Err ErrExpired).
Proof.
  split; [|split; [|split]].
  - intros σ now id Hid. by rewrite MemoryFacts.mem_Get_cases, Hid.
  - intros σ now id p s Hid Hp. rewrite MemoryFacts.mem_Get_cases, Hid, Hp.
    split; [|split].
    + intros Hexp. by rewrite After_true.
    + intros Hnow Hv. rewrite After_false by done.
      destruct (Z.leb_spec (MaxViews s) (CurrentViews s)); [done|lia].
    + intros Hnow Hv. rewrite After_false by done.
      destruct (Z.leb_spec (MaxViews s) (CurrentViews s)); [lia|done].
  - intros σ now id Hs. by rewrite RedisFacts.redis_Get_cases, Hs.
  - intros σ now id e s Hs Hdec. rewrite RedisFacts.redis_Get_cases, Hs, Hdec.
    destruct (Z.leb_spec (MaxViews s) (CurrentViews s)); simpl.
    + split; [done|]. split; [lia|discriminate].
    + split; [lia|]. split; [done|discriminate].
Qed.

Lemma get_outcomes_witness :
  MemoryStore.Get 10 "zzz" Fixtures.mem2 = (Err ErrNotFound, Fixtures.mem2) /\
  MemoryStore.Get 500 "old" Fixtures.mem2 = (Err ErrExpired, Fixtures.mem2) /\
  MemoryStore.Get 10 "nil" Fixtures.mem_spent
    = (Err ErrMaxViews, Fixtures.mem_spent) /\
  MemoryStore.Get 1000 "abc" Fixtures.mem2 = (Ok 1%positive, Fixtures.mem2) /\
  @RedisStore.Get FieldCodec.codec 1000 "abc" Fixtures.red1
    = (Err ErrNotFound, Fixtures.red1) /\
  fst (@RedisStore.Get FieldCodec.codec 20 "nil" Fixtures.red_spent)
    = Err ErrMaxViews /\
  @RedisStore.Get FieldCodec.codec 999 "abc" Fixtures.red1
    = (Ok Fixtures.s3, Fixtures.red1).
Proof.
  destruct (@get_outcomes FieldCodec.codec) as (Hm0 & Hm & Hr0 & Hr).
  split; [by apply Hm0|].
  split; [apply (Hm Fixtures.mem2 500 "old" 3%positive Fixtures.dead);
          [reflexivity | reflexivity | simpl; lia]|].
  split; [apply (Hm Fixtures.mem_spent 10 "nil" 1%positive Fixtures.spent);
          [reflexivity | reflexivity | simpl; lia | simpl; lia]|].
  split; [apply (Hm Fixtures.mem2 1000 "abc" 1%positive Fixtures.s3);
          [reflexivity | reflexivity | simpl; lia | simpl; lia]|].
  split; [by apply Hr0|].
  split; [apply (Hr Fixtures.red_spent 20 "nil" Fixtures.spent_entry Fixtures.spent);
          [reflexivity | reflexivity | simpl; lia]|].
  apply (Hr Fixtures.red1 999 "abc" Fixtures.s3_entry Fixtures.s3);
    [reflexivity | reflexivity | simpl; lia].
Defined.

(** ** C7: [Save] then [Get] *)

(** C7. For a secret that is live when saved, [Save] followed by [Get]
    of its id before the deadline succeeds on both backends and returns
    a record with the ciphertext, [maxViews], [expiresAt] and
    [createdAt] of the saved one.  In-process: the table must be open.
    Remote: the codec must read back what it wrote for this secret, in
    which case all seven fields come back; the deadline must be within
    a Duration of the clock at [Save]. *)
Theorem save_get_round_trip `{Gob} :
  (forall (σ : MemoryStore.State) t p s now,
     MemoryStore.secrets σ = Some t -> MemoryStore.heap σ !! p = Some s ->
     CurrentViews s < MaxViews s -> now < ExpiresAt s ->
     exists σ' r,
       MemoryStore.Save p σ = (Ok tt, σ') /\
       MemoryStore.Get now (ID s) σ' = (Ok p, σ') /\
       MemoryStore.heap σ' !! p = Some r /\
       EncryptedData r = EncryptedData s /\ MaxViews r = MaxViews s /\
       ExpiresAt r = ExpiresAt s /\ CreatedAt r = CreatedAt s) /\
  (forall (σ : RedisStore.State) s now now',
     gob_round_trip s ->
     CurrentViews s < MaxViews s ->
     now <= now' -> now' < ExpiresAt s ->
     ExpiresAt s - now <= Go.maxDuration ->
     exists σ' r,
       RedisStore.Save now s σ = (Ok tt, σ') /\
       RedisStore.Get now' (ID s) σ' = (Ok r, σ') /\
       r = s).
Proof.
  split.
  - intros σ t p s now Ht Hp Hv Hnow.
    exists (MemoryStore.set_secrets (Some (<[ID s := p]> t)) σ), s.
    split; [by apply MemoryFacts.Save_open|].
    split; [|by repeat split].
    rewrite MemoryFacts.mem_Get_cases. simpl. rewrite lookup_insert_eq, Hp.
    rewrite After_false by lia.
    destruct (Z.leb_spec (MaxViews s) (CurrentViews s)); [lia|done].
  - intros σ s now now' (b & Henc & Hdec) Hv Hle Hnow Hdur.
    eexists. exists s.
    split; [apply (RedisFacts.Save_live σ now s b Henc); lia|].
    split; [|done].
    rewrite RedisFacts.redis_Get_cases. unfold RedisStore.served. simpl.
    rewrite lookup_insert_eq. simpl.
    rewrite Until_exact by lia.
    destruct (Z.leb_spec (now + (ExpiresAt s - now)) now'); [lia|].
    simpl. rewrite Hdec.
    destruct (Z.leb_spec (MaxViews s) (CurrentViews s)); [lia|done].
Qed.

Lemma save_get_round_trip_witness :
  (exists σ' r,
     MemoryStore.Save 1%positive Fixtures.mem0 = (Ok tt, σ') /\
     MemoryStore.Get 10 "abc" σ' = (Ok 1%positive, σ') /\
     MemoryStore.heap σ' !! 1%positive = Some r /\
     EncryptedData r = [Byte.x2a; Byte.x07] /\ MaxViews r = 3 /\
     ExpiresAt r = 1000 /\ CreatedAt r = 5) /\
  (exists σ' r,
     @RedisStore.Save FieldCodec.codec 10 Fixtures.s3 Fixtures.red0 = (Ok tt, σ') /\
     @RedisStore.Get FieldCodec.codec 11 "abc" σ' = (Ok r, σ') /\
     r = Fixtures.s3).
Proof.
  destruct (@save_get_round_trip FieldCodec.codec) as [Hm Hr]. split.
  - apply (Hm Fixtures.mem0 ∅ 1%positive Fixtures.s3 10);
      [reflexivity | reflexivity | simpl; lia | simpl; lia].
  - apply (Hr Fixtures.red0 Fixtures.s3 10 11);
      [apply field_codec_round_trip | simpl; lia | lia | simpl; lia |].
    unfold Go.maxDuration. simpl. lia.
Defined.

(** ** C8: the bound on optimistic retries *)

(** C8. The remote [IncrementViews] runs at most three optimistic
    transactions; when each of the three is refused because the watched
    key was written in the meantime, it has run exactly three and
    returns [TxFailedErr], an error value different from [ErrNotFound],
    [ErrExpired] and [ErrMaxViews]. *)
Theorem increment_views_retry_bound `{Gob} :
  (forall env id (σ : RedisStore.State),
     (RedisStore.watches (snd (RedisStore.IncrementViews env id σ))
        <= RedisStore.watches σ + 3)%nat) /\
  (forall env id (σ : RedisStore.State),
     RedisStore.all_rejected 3 0 env (RedisStore.secretKey id) σ ->
     fst (RedisStore.IncrementViews env id σ) = Err TxFailedErr /\
     RedisStore.watches (snd (RedisStore.IncrementViews env id σ))
       = (RedisStore.watches σ + 3)%nat) /\
  TxFailedErr <> ErrNotFound /\ TxFailedErr <> ErrExpired /\
  TxFailedErr <> ErrMaxViews.
Proof.
  split; [|split].
  - intros env id σ. apply RedisFacts.retry_watches.
  - intros env id σ Hall. by apply RedisFacts.retry_all_rejected.
  - repeat split; discriminate.
Qed.

Lemma increment_views_retry_bound_witness :
  fst (@RedisStore.IncrementViews FieldCodec.codec Fixtures.contended "abc"
         Fixtures.red_hour) = Err TxFailedErr /\
  RedisStore.watches
    (snd (@RedisStore.IncrementViews FieldCodec.codec Fixtures.contended "abc"
            Fixtures.red_hour)) = 3%nat.
Proof.
  destruct (@increment_views_retry_bound FieldCodec.codec) as (_ & Hrej & _).
  apply (Hrej Fixtures.contended "abc" Fixtures.red_hour).
  repeat split.
Defined.


(** * Further properties of the storage code *)

(** ** The in-process backend: [Delete] and [Save] *)

(** X1. [MemoryStore.Delete] always succeeds, also when the id is absent
    or the store is closed.  Afterwards the id is not found, every other
    id is where it was, no record has changed, and a second [Delete] of
    the same id changes nothing. *)
Theorem memory_delete_removes (σ : MemoryStore.State) id :
  let σ' := snd (MemoryStore.Delete id σ) in
  fst (MemoryStore.Delete id σ) = Ok tt /\
  MemoryStore.heap σ' = MemoryStore.heap σ /\
  (forall now, MemoryStore.Get now id σ' = (Err ErrNotFound, σ')) /\
  (forall id', id' <> id ->
     MemoryStore.secrets σ' ≫= (.!! id') = MemoryStore.secrets σ ≫= (.!! id')) /\
  MemoryStore.Delete id σ' = (Ok tt, σ').
Proof.
  simpl. split; [done|]. destruct σ as [h [t|] c]; simpl.
  - split; [done|]. split; [|split].
    + intros now. rewrite MemoryFacts.mem_Get_cases. simpl.
      by rewrite lookup_delete_eq.
    + intros id' Hne. by rewrite lookup_delete_ne.
    + unfold MemoryStore.Delete, MemoryStore.map_delete, modify,
        MemoryStore.set_secrets. simpl. by rewrite delete_delete_eq.
  - split; [done|]. split; [|done].
    intros now. by rewrite MemoryFacts.mem_Get_cases.
Qed.

(** X2. [MemoryStore.Save] is last-write-wins per id.  Saving a second
    record under the id of a first leaves the store exactly as if only
    the second had been saved, with the id leading to the second
    pointer; saving the same pointer twice is the same as saving it
    once; entries under other ids stay; and no record is changed. *)
Theorem memory_save_last_write_wins (σ : MemoryStore.State) t p q s1 s2 :
  MemoryStore.secrets σ = Some t ->
  MemoryStore.heap σ !! p = Some s1 -> MemoryStore.heap σ !! q = Some s2 ->
  ID s1 = ID s2 ->
  let σ1 := snd (MemoryStore.Save p σ) in
  let σ2 := snd (MemoryStore.Save q σ1) in
  MemoryStore.Save q σ1 = (Ok tt, σ2) /\
  σ2 = snd (MemoryStore.Save q σ) /\
  MemoryStore.secrets σ2 ≫= (.!! ID s1) = Some q /\
  MemoryStore.Save p σ1 = (Ok tt, σ1) /\
  MemoryStore.heap σ2 = MemoryStore.heap σ /\
  (forall id', id' <> ID s1 ->
     MemoryStore.secrets σ2 ≫= (.!! id') = t !! id').
Proof.
  intros Ht Hp Hq Hid. simpl.
  rewrite (MemoryFacts.Save_open σ t p s1 Ht Hp),
          (MemoryFacts.Save_open σ t q s2 Ht Hq). simpl.
  rewrite (MemoryFacts.Save_open _ (<[ID s1 := p]> t) q s2) by done.
  rewrite (MemoryFacts.Save_open _ (<[ID s1 := p]> t) p s1) by done.
  simpl. unfold MemoryStore.set_secrets. simpl.
  rewrite <- Hid, !insert_insert_eq.
  repeat split.
  - by rewrite lookup_insert_eq.
  - intros id' Hne. by rewrite lookup_insert_ne.
Qed.

Lemma memory_save_last_write_wins_witness :
  MemoryStore.secrets
    (snd (MemoryStore.Save 2%positive (snd (MemoryStore.Save 1%positive Fixtures.mem0))))
    ≫= (.!! "abc") = Some 2%positive.
Proof.
  apply (memory_save_last_write_wins Fixtures.mem0 ∅ 1%positive 2%positive
           Fixtures.s3 Fixtures.s3_last); reflexivity.
Defined.

(** ** The in-process backend: what [IncrementViews] does to the state *)

(** X3. When the record under the id is past its deadline,
    [MemoryStore.IncrementViews] reports [ErrExpired]; when it is within
    its deadline but has no view left, it reports [ErrMaxViews].  In both
    cases it deletes the table entry and changes no record. *)
Theorem memory_increment_views_evicts (σ : MemoryStore.State) t id p s now :
  MemoryStore.secrets σ = Some t -> t !! id = Some p ->
  MemoryStore.heap σ !! p = Some s ->
  (ExpiresAt s < now ->
   MemoryStore.IncrementViews now id σ
     = (Err ErrExpired, MemoryStore.set_secrets (Some (delete id t)) σ)) /\
  (now <= ExpiresAt s -> MaxViews s <= CurrentViews s ->
   MemoryStore.IncrementViews now id σ
     = (Err ErrMaxViews, MemoryStore.set_secrets (Some (delete id t)) σ)).
Proof.
  intros Ht Hid Hp. split.
  - intros Hexp. MemoryFacts.unfold_ops. rewrite Ht, Hid, Hp. simpl.
    rewrite After_true by done. simpl. by rewrite Ht.
  - intros Hnow Hv. MemoryFacts.unfold_ops. rewrite Ht, Hid, Hp. simpl.
    rewrite After_false by done.
    destruct (Z.leb_spec (MaxViews s) (CurrentViews s)); [|lia].
    simpl. by rewrite Ht.
Qed.

Lemma memory_increment_views_evicts_witness :
  MemoryStore.IncrementViews 500 "old" Fixtures.mem2
    = (Err ErrExpired,
       MemoryStore.set_secrets
         (Some (delete "old" {[ "abc" := 1%positive; "old" := 3%positive ]}))
         Fixtures.mem2) /\
  MemoryStore.IncrementViews 10 "nil" Fixtures.mem_spent
    = (Err ErrMaxViews,
       MemoryStore.set_secrets (Some (delete "nil" {[ "nil" := 1%positive ]}))
         Fixtures.mem_spent).
Proof.
  split.
  - apply (memory_increment_views_evicts Fixtures.mem2
             {[ "abc" := 1%positive; "old" := 3%positive ]} "old" 3%positive
             Fixtures.dead 500); try reflexivity.
  - apply (memory_increment_views_evicts Fixtures.mem_spent
             {[ "nil" := 1%positive ]} "nil" 1%positive
             Fixtures.spent 10); try reflexivity; simpl; lia.
Defined.

(** X4. Whatever it reports, [MemoryStore.IncrementViews] changes at most
    the view count of a record: every record that was in the heap is
    still there with the same id, ciphertext, [MaxViews], [ExpiresAt],
    [CreatedAt] and passphrase.  Records other than the one under the id
    are untouched, entries under other ids stay as they were, and the
    table gains no entry. *)
Theorem memory_increment_views_frame (σ : MemoryStore.State) now id :
  let σ' := snd (MemoryStore.IncrementViews now id σ) in
  (forall q r, MemoryStore.heap σ !! q = Some r ->
     exists v, MemoryStore.heap σ' !! q = Some (with_views v r)) /\
  (forall q, MemoryStore.secrets σ ≫= (.!! id) <> Some q ->
     MemoryStore.heap σ' !! q = MemoryStore.heap σ !! q) /\
  (forall id', id' <> id ->
     MemoryStore.secrets σ' ≫= (.!! id') = MemoryStore.secrets σ ≫= (.!! id')) /\
  (MemoryStore.secrets σ ≫= (.!! id) = None ->
     MemoryStore.secrets σ' ≫= (.!! id) = None).
Proof.
  assert (Hsame : forall r : Secret, r = with_views (CurrentViews r) r)
    by (by intros []).
  assert (Hkeep : forall (h : gmap MemoryStore.loc Secret) q r,
            h !! q = Some r -> exists v, h !! q = Some (with_views v r)).
  { intros h q r Hq. exists (CurrentViews r). by rewrite <- Hsame. }
  destruct σ as [h [t|] c]; simpl.
  2: { split; [apply Hkeep|]. done. }
  MemoryFacts.unfold_ops. destruct (t !! id) as [p|] eqn:Hid; simpl.
  2: { rewrite Hid. split; [apply Hkeep|]. done. }
  destruct (h !! p) as [s|] eqn:Hp; simpl.
  2: { rewrite Hid. split; [apply Hkeep|]. split; [done|]. split; [done|].
       intros [=]. }
  assert (Hdel : forall id', id' <> id -> delete id t !! id' = t !! id')
    by (intros; by rewrite lookup_delete_ne).
  destruct (Go.After now (ExpiresAt s)); simpl.
  { split; [apply Hkeep|]. split; [done|]. split; [done|]. intros [=]. }
  destruct (MaxViews s <=? CurrentViews s); simpl.
  { split; [apply Hkeep|]. split; [done|]. split; [done|]. intros [=]. }
  set (v := Go.int_wrap (CurrentViews s + 1)).
  assert (Hheap : forall q r, h !! q = Some r ->
            exists v', alter (with_views v) p h !! q = Some (with_views v' r)).
  { intros q r Hq. rewrite lookup_alter. case_decide; subst; rewrite Hq; simpl.
    - by exists v.
    - exists (CurrentViews r). by rewrite <- Hsame. }
  assert (Hother : forall q, Some p <> Some q ->
            alter (with_views v) p h !! q = h !! q).
  { intros q Hne. rewrite lookup_alter. case_decide; [congruence|done]. }
  destruct (MaxViews s <=? v); simpl.
  - split; [done|]. split; [done|]. split; [done|]. intros [=].
  - split; [done|]. split; [done|]. split; [done|]. intros [=].
Qed.

(** X5. After [MemoryStore.IncrementViews] returns (a value or an error),
    the table never holds a dead record under that id: either the id is
    absent, or it leads to a record that still has a view left and is
    not past its deadline at the clock of the call. *)
Theorem memory_increment_views_leaves_live (σ : MemoryStore.State) now id :
  fst (MemoryStore.IncrementViews now id σ) <> Panic ->
  let σ' := snd (MemoryStore.IncrementViews now id σ) in
  match MemoryStore.secrets σ' ≫= (.!! id) with
  | None => True
  | Some p => exists s', MemoryStore.heap σ' !! p = Some s' /\ live now s' = true
  end.
Proof.
  destruct σ as [h [t|] c]; simpl; [|done].
  MemoryFacts.unfold_ops. destruct (t !! id) as [p|] eqn:Hid; simpl.
  2: { by rewrite Hid. }
  destruct (h !! p) as [s|] eqn:Hp; simpl; [|done].
  destruct (Go.After now (ExpiresAt s)) eqn:Ha; simpl.
  { by rewrite lookup_delete_eq. }
  destruct (MaxViews s <=? CurrentViews s); simpl.
  { by rewrite lookup_delete_eq. }
  destruct (Z.leb_spec (MaxViews s) (Go.int_wrap (CurrentViews s + 1))); simpl.
  { by rewrite lookup_delete_eq. }
  intros _. rewrite Hid. eexists. rewrite lookup_alter, decide_True, Hp by done.
  split; [reflexivity|]. unfold live. simpl. rewrite Ha. simpl.
  apply Z.ltb_lt. lia.
Qed.

Lemma memory_increment_views_leaves_live_witness :
  match MemoryStore.secrets (snd (MemoryStore.IncrementViews 10 "abc" Fixtures.mem1))
          ≫= (.!! "abc") with
  | None => True
  | Some p =>
      exists s',
        MemoryStore.heap (snd (MemoryStore.IncrementViews 10 "abc" Fixtures.mem1))
          !! p = Some s' /\ live 10 s' = true
  end.
Proof.
  apply (memory_increment_views_leaves_live Fixtures.mem1 10 "abc"). discriminate.
Defined.

(** ** The in-process backend: a view budget, call by call *)

(** X6. A record with [k = MaxViews - CurrentViews] views left serves
    exactly [k] more sequential [IncrementViews] calls made within its
    deadline: they return [CurrentViews + 1, ..., MaxViews] in order, the
    last one removes the table entry, the record ends with
    [CurrentViews = MaxViews], and every later call reports
    [ErrNotFound]. *)
Theorem memory_view_budget (ts : list Go.Time) :
  forall (σ : MemoryStore.State) t id p s,
  MemoryStore.secrets σ = Some t -> t !! id = Some p ->
  MemoryStore.heap σ !! p = Some s ->
  int_fields s -> CurrentViews s < MaxViews s ->
  length ts = Z.to_nat (MaxViews s - CurrentViews s) ->
  Forall (fun now => now <= ExpiresAt s) ts ->
  exists σ',
    MemoryTrace.increments ts id σ
      = (Ok (Ok <$> seqZ (CurrentViews s + 1) (MaxViews s - CurrentViews s)), σ') /\
    MemoryStore.secrets σ' = Some (delete id t) /\
    MemoryStore.heap σ' = <[p := with_views (MaxViews s) s]> (MemoryStore.heap σ) /\
    (forall now, MemoryStore.IncrementViews now id σ' = (Err ErrNotFound, σ')).
Proof.
  induction ts as [|now ts IH]; intros σ t id p s Ht Hid Hp Hi Hlt Hlen Hall.
  { simpl in Hlen. lia. }
  apply Forall_cons in Hall as [Hnow Hall].
  destruct (MemoryFacts.mem_IncrementViews_live σ t id p s now Ht Hid Hp Hi Hlt Hnow)
    as (σ1 & Hrun & _ & Hh1 & Hs1).
  simpl in Hlen. rewrite (seqZ_cons (CurrentViews s + 1)) by lia.
  simpl. unfold mbind, M_bind, bind, observe, mret, M_ret, ret.
  rewrite Hrun. simpl.
  destruct (decide (CurrentViews s + 1 = MaxViews s)) as [Heq|Hne].
  - assert (ts = []) as -> by (destruct ts; [done|simpl in Hlen; lia]).
    simpl. rewrite seqZ_nil by lia. simpl.
    exists σ1. split; [done|]. split; [done|].
    split; [by rewrite Hh1, Heq|].
    intros now'. apply (MemoryFacts.IncrementViews_absent σ1 _ id now' Hs1).
    apply lookup_delete_eq.
  - destruct Hi as [Hm Hc].
    assert (Hi1 : int_fields (with_views (CurrentViews s + 1) s)).
    { split; simpl; [done|]. unfold Go.is_int, Go.int_min, Go.int_max in *. lia. }
    destruct (IH σ1 t id p (with_views (CurrentViews s + 1) s))
      as (σ' & Hrest & Hs' & Hh' & Hgone); try done.
    + by rewrite Hh1, lookup_insert_eq.
    + simpl. lia.
    + simpl. lia.
    + simpl in Hrest, Hh'.
      replace (Z.succ (CurrentViews s + 1)) with (CurrentViews s + 1 + 1) by lia.
      replace (Z.pred (MaxViews s - CurrentViews s))
        with (MaxViews s - (CurrentViews s + 1)) by lia.
      rewrite Hrest. simpl.
      exists σ'. split; [done|].
      split; [done|]. split; [|done].
      rewrite Hh', Hh1. by rewrite insert_insert_eq.
Qed.

Lemma memory_view_budget_witness :
  exists σ',
    MemoryTrace.increments [10; 20; 30] "abc" Fixtures.mem1
      = (Ok [Ok 1; Ok 2; Ok 3], σ') /\
    MemoryStore.secrets σ' = Some (delete "abc" {[ "abc" := 1%positive ]}) /\
    MemoryStore.heap σ'
      = <[1%positive := with_views 3 Fixtures.s3]> (MemoryStore.heap Fixtures.mem1) /\
    (forall now, MemoryStore.IncrementViews now "abc" σ' = (Err ErrNotFound, σ')).
Proof.
  apply (memory_view_budget [10; 20; 30] Fixtures.mem1 {[ "abc" := 1%positive ]}
           "abc" 1%positive Fixtures.s3); try reflexivity.
  - split; unfold Go.is_int, Go.int_min, Go.int_max; simpl; lia.
  - repeat constructor; simpl; lia.
Defined.

(** ** The in-process backend: reachable states *)

Lemma wf_run_op (o : MemoryTrace.op) (σ : MemoryStore.State) :
  MemoryStore.wf σ -> MemoryStore.wf (snd (MemoryTrace.run_op o σ)).
Proof.
  intros Hwf. destruct o as [p s|p|now id|id|now id|now|]; simpl.
  - unfold MemoryTrace.alloc, modify. simpl.
    destruct (MemoryStore.heap σ !! p) as [s0|] eqn:Hp; [done|].
    intros t id q Ht Hid. simpl in *. destruct (Hwf t id q Ht Hid) as [r Hr].
    rewrite lookup_insert. case_decide; [by eexists|by rewrite Hr].
  - by apply MemoryFacts.wf_Save.
  - unfold mbind, M_bind, bind.
    pose proof (MemoryFacts.Get_frame σ now id) as Hf.
    destruct (MemoryStore.Get now id σ) as [[?|?|] σ']; simpl in *; by subst.
  - by apply MemoryFacts.wf_Delete.
  - unfold mbind, M_bind, bind.
    pose proof (MemoryFacts.wf_IncrementViews σ now id Hwf) as Hf.
    destruct (MemoryStore.IncrementViews now id σ) as [[?|?|] σ']; simpl in *; done.
  - by apply MemoryFacts.wf_cleanup.
  - apply MemoryFacts.wf_Close.
Qed.

Lemma wf_run_all (ops : list MemoryTrace.op) (σ : MemoryStore.State) :
  MemoryStore.wf σ -> MemoryStore.wf (MemoryTrace.run_all ops σ).
Proof.
  revert σ. induction ops as [|o r IH]; intros σ Hwf; [done|].
  simpl. by apply IH, wf_run_op.
Qed.

Lemma wf_no_panic (σ : MemoryStore.State) now id :
  MemoryStore.wf σ ->
  fst (MemoryStore.Get now id σ) <> Panic /\
  fst (MemoryStore.IncrementViews now id σ) <> Panic /\
  MemoryStore.cleanup now σ = (Ok tt, snd (MemoryStore.cleanup now σ)).
Proof.
  intros Hwf. split; [|split].
  - rewrite MemoryFacts.mem_Get_cases. simpl.
    destruct (MemoryStore.secrets σ) as [t|] eqn:Ht; [|done]. simpl.
    destruct (t !! id) as [p|] eqn:Hid; [|done].
    destruct (Hwf t id p Ht Hid) as [s Hs]. rewrite Hs.
    destruct (Go.After now (ExpiresAt s)); [done|].
    destruct (MaxViews s <=? CurrentViews s); done.
  - destruct (MemoryStore.secrets σ) as [t|] eqn:Ht.
    2: { MemoryFacts.unfold_ops. by rewrite Ht. }
    destruct (t !! id) as [p|] eqn:Hid.
    2: { by rewrite (MemoryFacts.IncrementViews_absent σ t id now Ht Hid). }
    destruct (Hwf t id p Ht Hid) as [s Hs].
    MemoryFacts.unfold_ops. rewrite Ht, Hid, Hs. simpl.
    destruct (Go.After now (ExpiresAt s)); [done|].
    destruct (MaxViews s <=? CurrentViews s); [done|]. simpl.
    destruct (MaxViews s <=? _); done.
  - destruct (MemoryStore.secrets σ) as [t|] eqn:Ht.
    + destruct (MemoryFacts.cleanup_spec now σ t Ht Hwf) as (t' & Hrun & _).
      by rewrite Hrun.
    + by rewrite MemoryFacts.cleanup_closed.
Qed.

(** X7. In every state the in-process store can reach from construction
    -- through any sequence of [Save], [Get], [Delete], [IncrementViews],
    sweeps and [Close], interleaved with callers building new secrets --
    the table holds allocated pointers only, so [Get], [IncrementViews]
    and the sweep never panic.  [Save] panics exactly when it is handed a
    nil pointer or the store has been closed. *)
Theorem memory_reachable_no_panic (σ : MemoryStore.State) :
  MemoryTrace.reachable σ ->
  MemoryStore.wf σ /\
  (forall now id,
     fst (MemoryStore.Get now id σ) <> Panic /\
     fst (MemoryStore.IncrementViews now id σ) <> Panic /\
     fst (MemoryStore.cleanup now σ) = Ok tt) /\
  (forall p,
     fst (MemoryStore.Save p σ) = Panic <->
     MemoryStore.heap σ !! p = None \/ MemoryStore.secrets σ = None).
Proof.
  intros (h & ops & ->).
  assert (Hwf : MemoryStore.wf (MemoryTrace.run_all ops (MemoryStore.NewMemoryStore h)))
    by apply wf_run_all, MemoryFacts.wf_New.
  split; [done|]. split.
  - intros now id. destruct (wf_no_panic _ now id Hwf) as (Hg & Hi & Hc).
    split; [done|]. split; [done|]. by rewrite Hc.
  - intros p. set (σ := MemoryTrace.run_all ops _). MemoryFacts.unfold_ops.
    destruct (MemoryStore.heap σ !! p) as [s|]; simpl.
    + destruct (MemoryStore.secrets σ) as [t|]; simpl.
      * split; [done|]. intros [[=]|[=]].
      * split; [by right|done].
    + split; [by left|done].
Qed.

Lemma memory_reachable_no_panic_witness :
  MemoryStore.wf Fixtures.mem2 /\
  (forall now id,
     fst (MemoryStore.Get now id Fixtures.mem2) <> Panic /\
     fst (MemoryStore.IncrementViews now id Fixtures.mem2) <> Panic /\
     fst (MemoryStore.cleanup now Fixtures.mem2) = Ok tt) /\
  (forall p,
     fst (MemoryStore.Save p Fixtures.mem2) = Panic <->
     MemoryStore.heap Fixtures.mem2 !! p = None \/
     MemoryStore.secrets Fixtures.mem2 = None).
Proof.
  apply (memory_reachable_no_panic Fixtures.mem2).
  exists {[ 1%positive := Fixtures.s3; 2%positive := Fixtures.s3_last;
            3%positive := Fixtures.dead ]},
         [MemoryTrace.OpSave 1%positive; MemoryTrace.OpSave 3%positive].
  reflexivity.
Defined.

(** ** The in-process backend: after a sweep, after [Close] *)

(** X8. Right after a sweep of an open store, [Get] at the clock of the
    sweep never reports [ErrExpired] or [ErrMaxViews]: every id either
    is not found or yields its record.  A second sweep at the same clock
    changes nothing. *)
Theorem memory_sweep_leaves_live (σ : MemoryStore.State) t now :
  MemoryStore.secrets σ = Some t -> MemoryStore.wf σ ->
  let σ' := snd (MemoryStore.cleanup now σ) in
  (forall id,
     MemoryStore.Get now id σ' = (Err ErrNotFound, σ') \/
     exists p, MemoryStore.Get now id σ' = (Ok p, σ') /\ t !! id = Some p) /\
  MemoryStore.cleanup now σ' = (Ok tt, σ').
Proof.
  intros Ht Hwf.
  destruct (MemoryFacts.cleanup_spec now σ t Ht Hwf) as (t' & Hrun & Hlook).
  rewrite Hrun. simpl. split.
  - intros id. rewrite MemoryFacts.mem_Get_cases. simpl. rewrite Hlook.
    destruct (t !! id) as [p|] eqn:Hid; [|by left].
    destruct (Hwf t id p Ht Hid) as [s Hs]. rewrite Hs.
    destruct (MemoryStore.reclaimable now s) eqn:Hr; [by left|].
    right. exists p. rewrite Hs. unfold MemoryStore.reclaimable in Hr.
    apply orb_false_elim in Hr as [-> ->]. done.
  - assert (Hwf' : MemoryStore.wf (MemoryStore.set_secrets (Some t') σ)).
    { pose proof (MemoryFacts.wf_cleanup now σ Hwf) as H'. by rewrite Hrun in H'. }
    destruct (MemoryFacts.cleanup_spec now (MemoryStore.set_secrets (Some t') σ)
                t' eq_refl Hwf') as (t'' & Hrun' & Hlook').
    rewrite Hrun'. f_equal. unfold MemoryStore.set_secrets. simpl. do 2 f_equal.
    apply map_eq. intros id. rewrite Hlook'. simpl. rewrite Hlook.
    destruct (t !! id) as [p|] eqn:Hid; [|done].
    destruct (MemoryStore.heap σ !! p) as [s|] eqn:Hs; [|done].
    destruct (MemoryStore.reclaimable now s) eqn:Hr; [done|].
    by rewrite Hs, Hr.
Qed.

Lemma memory_sweep_leaves_live_witness :
  (forall id,
     MemoryStore.Get 430 id (snd (MemoryStore.cleanup 430 Fixtures.mem2))
       = (Err ErrNotFound, snd (MemoryStore.cleanup 430 Fixtures.mem2)) \/
     exists p,
       MemoryStore.Get 430 id (snd (MemoryStore.cleanup 430 Fixtures.mem2))
         = (Ok p, snd (MemoryStore.cleanup 430 Fixtures.mem2)) /\
       ({[ "abc" := 1%positive; "old" := 3%positive ]} : gmap string MemoryStore.loc)
         !! id = Some p) /\
  MemoryStore.cleanup 430 (snd (MemoryStore.cleanup 430 Fixtures.mem2))
    = (Ok tt, snd (MemoryStore.cleanup 430 Fixtures.mem2)).
Proof.
  apply (memory_sweep_leaves_live Fixtures.mem2
           {[ "abc" := 1%positive; "old" := 3%positive ]} 430);
    [reflexivity | apply wf_mem2].
Defined.

(** X9. [Close] is idempotent, and a sweeper tick that still fires after
    [Close] finds a nil table and changes nothing. *)
Theorem memory_close_idempotent (σ : MemoryStore.State) now :
  let σc := snd (MemoryStore.Close σ) in
  MemoryStore.Close σc = (Ok tt, σc) /\
  MemoryStore.cleanupLoop [MemoryStore.Tick now] σc = (Ok tt, σc) /\
  MemoryStore.heap σc = MemoryStore.heap σ.
Proof.
  simpl. split; [done|]. split; [|done].
  unfold mbind, M_bind, bind. by rewrite MemoryFacts.cleanup_closed.
Qed.

(** ** The remote backend: keys, [Delete] and [Save] *)

Lemma secretKey_inj id1 id2 :
  RedisStore.secretKey id1 = RedisStore.secretKey id2 -> id1 = id2.
Proof. unfold RedisStore.secretKey. simpl. intros [=]. done. Qed.

(** X10. [RedisStore.Delete] touches no key but the one of its id:
    distinct ids have distinct keys, so every other id's entry stays,
    whatever the command reports.  When it reports no error the key is
    gone: [Get] of the id then reports [ErrNotFound] at any clock, and a
    further [Delete] changes nothing. *)
Theorem redis_delete_removes `{Gob} (σ : RedisStore.State) id :
  let σ' := snd (RedisStore.Delete id σ) in
  (forall id', id' <> id ->
     RedisStore.keys σ' !! RedisStore.secretKey id'
       = RedisStore.keys σ !! RedisStore.secretKey id') /\
  RedisStore.watches σ' = RedisStore.watches σ /\
  (fst (RedisStore.Delete id σ) = Ok tt ->
   (forall now, RedisStore.Get now id σ' = (Err ErrNotFound, σ')) /\
   snd (RedisStore.Delete id σ') = σ').
Proof.
  simpl. split; [|split; [done|]].
  - intros id' Hne. rewrite lookup_delete_ne; [done|].
    intros Heq. apply Hne. symmetry. by apply secretKey_inj.
  - intros _. split.
    + intros now. rewrite RedisFacts.redis_Get_cases.
      by rewrite RedisFacts.served_delete.
    + unfold RedisStore.set_keys. simpl. by rewrite delete_delete_eq.
Qed.

(** X11. [RedisStore.Save] either writes exactly one key or changes
    nothing.  When the record encodes and its deadline is after the
    clock, the key of its id is replaced by the new blob, due at the
    clock plus the (saturated) time left, and every other key stays;
    in every other case [Save] fails and the engine is as before. *)
Theorem redis_save_writes_one_key `{Gob} (σ : RedisStore.State) now s :
  (forall b, gob_Encode s = Some b -> now < ExpiresAt s ->
     RedisStore.Save now s σ =
       (Ok tt,
        RedisStore.set_keys
          (<[RedisStore.secretKey (ID s) :=
               {| RedisStore.value := b;
                  RedisStore.deadline := Some (now + Go.Until now (ExpiresAt s)) |}]>
             (RedisStore.keys σ)) σ) /\
     now < now + Go.Until now (ExpiresAt s) <= ExpiresAt s) /\
  (gob_Encode s = None \/ ExpiresAt s <= now ->
     snd (RedisStore.Save now s σ) = σ /\
     exists e, fst (RedisStore.Save now s σ) = Err e).
Proof.
  split.
  - intros b Henc Hnow. split; [by apply RedisFacts.Save_live|].
    unfold Go.Until, Go.Sub, Go.minDuration, Go.maxDuration. lia.
  - intros Hbad. RedisFacts.unfold_ops.
    destruct (gob_Encode s) as [b|]; simpl; [|by eauto].
    destruct Hbad as [[=]|Hexp].
    pose proof (Until_nonpos now (ExpiresAt s) Hexp).
    destruct (Z.leb_spec (Go.Until now (ExpiresAt s)) 0); [|lia]. by eauto.
Qed.

Lemma redis_save_writes_one_key_witness :
  RedisStore.keys Fixtures.red1 !! RedisStore.secretKey "abc"
    = Some Fixtures.s3_entry /\
  snd (@RedisStore.Save FieldCodec.codec 1000 Fixtures.s3 Fixtures.red1)
    = Fixtures.red1.
Proof.
  destruct (@redis_save_writes_one_key FieldCodec.codec Fixtures.red0 10 Fixtures.s3)
    as [Hok _].
  destruct (@redis_save_writes_one_key FieldCodec.codec Fixtures.red1 1000 Fixtures.s3)
    as [_ Hbad].
  split.
  - unfold Fixtures.red1.
    destruct (Hok (RedisStore.value Fixtures.s3_entry) eq_refl) as [-> _];
      [simpl; lia|]. reflexivity.
  - apply Hbad. right. simpl. lia.
Defined.

(** ** The remote backend: what [IncrementViews] does besides counting *)

(** X12. When the first pass of the remote [IncrementViews] reads a
    record that is past its deadline, the call reports [ErrExpired];
    when it reads one that is within its deadline but has no view left,
    it reports [ErrMaxViews].  In both cases the loop stops after that
    one transaction, whatever another client wrote in between; the pass
    itself writes nothing, and the call then sends one delete for the
    key and drops its report: the state left is the one [Delete] leaves
    after the pass. *)
Theorem redis_increment_views_evicts `{Gob} (σ : RedisStore.State) env id e s :
  RedisStore.served (RedisStore.att_now (env 0%nat)) (RedisStore.secretKey id) σ
    = Some e ->
  gob_Decode (RedisStore.value e) = Some s ->
  let σ1 := snd (RedisStore.Watch (env 0%nat) (RedisStore.secretKey id) σ) in
  let σ' := snd (RedisStore.IncrementViews env id σ) in
  (ExpiresAt s < RedisStore.att_now (env 0%nat) \/
   MaxViews s <= CurrentViews s ->
   fst (RedisStore.IncrementViews env id σ) =
     Err (if Go.After (RedisStore.att_now (env 0%nat)) (ExpiresAt s)
          then ErrExpired else ErrMaxViews) /\
   σ1 = snd (RedisStore.rival_write (RedisStore.secretKey id)
               (RedisStore.att_rival (env 0%nat)) (RedisStore.count_watch σ)) /\
   σ' = snd (RedisStore.Delete id σ1) /\
   RedisStore.watches σ' = S (RedisStore.watches σ)).
Proof.
  intros Hs Hdec σ1 σ' Hdead. subst σ1 σ'.
  unfold RedisStore.IncrementViews. simpl.
  assert (HW : RedisStore.Watch (env 0%nat) (RedisStore.secretKey id) σ =
            (Err (if Go.After (RedisStore.att_now (env 0%nat)) (ExpiresAt s)
                  then ErrExpired else ErrMaxViews),
             snd (RedisStore.rival_write (RedisStore.secretKey id)
                    (RedisStore.att_rival (env 0%nat)) (RedisStore.count_watch σ)))).
  { RedisFacts.unfold_ops. rewrite RedisFacts.served_count_watch, Hs. simpl.
    rewrite Hdec. simpl.
    destruct (Go.After (RedisStore.att_now (env 0%nat)) (ExpiresAt s)) eqn:Haft.
    - by destruct (RedisStore.att_rival (env 0%nat)) as [[r|]|].
    - destruct (Z.leb_spec (MaxViews s) (CurrentViews s)) as [_|Hlive].
      + by destruct (RedisStore.att_rival (env 0%nat)) as [[r|]|].
      + destruct Hdead as [Hexp|Hmax]; [|lia].
        rewrite After_true in Haft by done. discriminate. }
  pose proof (RedisFacts.Watch_watches (env 0%nat) (RedisStore.secretKey id) σ) as Hw.
  rewrite HW in Hw |- *. simpl in Hw |- *.
  destruct (Go.After (RedisStore.att_now (env 0%nat)) (ExpiresAt s)); simpl;
    (split; [done|]; split; [done|]; split; [done|exact Hw]).
Qed.

Lemma redis_increment_views_evicts_witness :
  fst (@RedisStore.IncrementViews FieldCodec.codec (fun _ => RedisStore.quiet 20)
         "nil" Fixtures.red_spent) = Err ErrMaxViews /\
  snd (@RedisStore.IncrementViews FieldCodec.codec (fun _ => RedisStore.quiet 20)
         "nil" Fixtures.red_spent)
    = snd (@RedisStore.Delete FieldCodec.codec "nil"
             (RedisStore.count_watch Fixtures.red_spent)).
Proof.
  destruct (@redis_increment_views_evicts FieldCodec.codec Fixtures.red_spent
              (fun _ => RedisStore.quiet 20) "nil" Fixtures.spent_entry
              Fixtures.spent eq_refl eq_refl) as (Hf & _ & Hst & _).
  - right. simpl. lia.
  - split; [exact Hf | exact Hst].
Defined.

(** X13. A successful remote [IncrementViews] that leaves views over
    carries the key's time to live over in whole seconds instead of
    resetting it.  When the key has at least half a second left, the
    key is rewritten with the updated record and is due at the clock
    plus the engine's TTL reply, within about half a second of the
    instant it was due before; a [Get] before that instant returns the
    record with the new count and every other field as before.  In the
    key's last half second the reply is 0 and nothing is written: the
    keys stay as they were, although the call returns the count plus
    one. *)
Theorem redis_increment_then_get `{Gob} (σ : RedisStore.State) env id e s d now :
  RedisStore.att_now (env 0%nat) = now ->
  RedisStore.att_rival (env 0%nat) = None ->
  RedisStore.served now (RedisStore.secretKey id) σ = Some e ->
  RedisStore.deadline e = Some d ->
  gob_Decode (RedisStore.value e) = Some s ->
  gob_round_trip (with_views (CurrentViews s + 1) s) ->
  int_fields s -> CurrentViews s + 1 < MaxViews s -> now <= ExpiresAt s ->
  let due := now + RedisStore.ttl_reply (d - now) in
  exists σ',
    RedisStore.IncrementViews env id σ = (Ok (CurrentViews s + 1), σ') /\
    (500000000 <= d - now ->
     d - 501000000 < due <= d + 500000000 /\
     (exists e', RedisStore.keys σ' !! RedisStore.secretKey id = Some e' /\
                 RedisStore.deadline e' = Some due) /\
     (forall now', now' < due ->
        RedisStore.Get now' id σ' = (Ok (with_views (CurrentViews s + 1) s), σ'))) /\
    (d - now < 500000000 -> RedisStore.keys σ' = RedisStore.keys σ).
Proof.
  intros Hn Hq Hs Hd Hdec (b & Henc & Hdec') Hi Hlt Hnow due. subst now.
  destruct (RedisFacts.Watch_live σ (env 0%nat) (RedisStore.secretKey id) e s
              Hq Hs Hdec Hi) with (newData := b) as (σ' & HW & _ & Hk);
    [lia | done | done |].
  rewrite decide_False in Hk by lia. rewrite Hd in Hk. simpl in Hk. fold due in Hk.
  pose proof (ttl_reply_pos (d - RedisStore.att_now (env 0%nat))) as Hpos.
  pose proof (ttl_reply_bounds (d - RedisStore.att_now (env 0%nat))) as Hbd.
  exists σ'. split; [unfold RedisStore.IncrementViews; simpl; by rewrite HW|].
  split.
  - intros Hleft.
    destruct (Z.ltb_spec 0 (RedisStore.ttl_reply (d - RedisStore.att_now (env 0%nat))))
      as [_|?]; [|lia].
    split; [subst due; lia|]. split.
    + eexists. rewrite Hk, lookup_insert_eq. done.
    + intros now' Hnow'. rewrite RedisFacts.redis_Get_cases. unfold RedisStore.served.
      rewrite Hk, lookup_insert_eq. simpl.
      destruct (Z.leb_spec due now'); [lia|]. simpl. rewrite Hdec'. simpl.
      destruct (Z.leb_spec (MaxViews s) (CurrentViews s + 1)); [lia|done].
  - intros Hshort.
    destruct (Z.ltb_spec 0 (RedisStore.ttl_reply (d - RedisStore.att_now (env 0%nat))))
      as [?|_]; [lia|done].
Qed.

Lemma redis_increment_then_get_witness :
  (exists σ',
     @RedisStore.IncrementViews FieldCodec.codec (fun _ => RedisStore.quiet 1400000000)
       "abc" Fixtures.red_hour = (Ok 1, σ') /\
     (500000000 <= 3600 * Go.Second - 1400000000 ->
      3600 * Go.Second - 501000000
        < 1400000000 + RedisStore.ttl_reply (3600 * Go.Second - 1400000000)
        <= 3600 * Go.Second + 500000000 /\
      (exists e', RedisStore.keys σ' !! RedisStore.secretKey "abc" = Some e' /\
                  RedisStore.deadline e'
                    = Some (1400000000
                            + RedisStore.ttl_reply (3600 * Go.Second - 1400000000))) /\
      (forall now',
         now' < 1400000000 + RedisStore.ttl_reply (3600 * Go.Second - 1400000000) ->
         RedisStore.Get now' "abc" σ' = (Ok (with_views 1 Fixtures.s3_hour), σ'))) /\
     (3600 * Go.Second - 1400000000 < 500000000 ->
      RedisStore.keys σ' = RedisStore.keys Fixtures.red_hour)) /\
  (exists σ',
     @RedisStore.IncrementViews FieldCodec.codec (fun _ => RedisStore.quiet 10)
       "abc" Fixtures.red1 = (Ok 1, σ') /\
     (500000000 <= 1000 - 10 ->
      1000 - 501000000 < 10 + RedisStore.ttl_reply (1000 - 10)
        <= 1000 + 500000000 /\
      (exists e', RedisStore.keys σ' !! RedisStore.secretKey "abc" = Some e' /\
                  RedisStore.deadline e'
                    = Some (10 + RedisStore.ttl_reply (1000 - 10))) /\
      (forall now',
         now' < 10 + RedisStore.ttl_reply (1000 - 10) ->
         RedisStore.Get now' "abc" σ' = (Ok (with_views 1 Fixtures.s3), σ'))) /\
     (1000 - 10 < 500000000 ->
      RedisStore.keys σ' = RedisStore.keys Fixtures.red1)).
Proof.
  split.
  - apply (@redis_increment_then_get FieldCodec.codec Fixtures.red_hour
             (fun _ => RedisStore.quiet 1400000000) "abc" Fixtures.s3_hour_entry
             Fixtures.s3_hour (3600 * Go.Second) 1400000000); try reflexivity.
    + apply field_codec_round_trip.
    + split; unfold Go.is_int, Go.int_min, Go.int_max; simpl; lia.
    + vm_compute. discriminate.
  - apply (@redis_increment_then_get FieldCodec.codec Fixtures.red1
             (fun _ => RedisStore.quiet 10) "abc" Fixtures.s3_entry
             Fixtures.s3 1000 10); try reflexivity.
    + apply field_codec_round_trip.
    + split; unfold Go.is_int, Go.int_min, Go.int_max; simpl; lia.
    + simpl. lia.
Defined.

(** ** The remote backend: the retry loop *)

(** X14. The retry loop recovers from refused transactions: when the
    first [k] passes ([k] at most 2) are refused because another client
    wrote the key, and the next pass runs undisturbed on a live record,
    [IncrementViews] succeeds with that record's count plus one after
    [k + 1] transactions. *)
Theorem redis_retry_recovers `{Gob} (k : nat) (σ : RedisStore.State) env id e s :
  (k <= 2)%nat ->
  RedisStore.all_rejected k 0 env (RedisStore.secretKey id) σ ->
  let σk := RedisTrace.after_passes k 0 env (RedisStore.secretKey id) σ in
  RedisStore.att_rival (env k) = None ->
  RedisStore.served (RedisStore.att_now (env k)) (RedisStore.secretKey id) σk
    = Some e ->
  gob_Decode (RedisStore.value e) = Some s ->
  is_Some (gob_Encode (with_views (CurrentViews s + 1) s)) ->
  int_fields s -> CurrentViews s < MaxViews s ->
  RedisStore.att_now (env k) <= ExpiresAt s ->
  fst (RedisStore.IncrementViews env id σ) = Ok (CurrentViews s + 1) /\
  RedisStore.watches (snd (RedisStore.IncrementViews env id σ))
    = (RedisStore.watches σ + k + 1)%nat.
Proof.
  intros Hk Hall σk Hq Hs Hdec [b Henc] Hi Hlt Hnow.
  unfold RedisStore.IncrementViews.
  replace 3%nat with (k + S (2 - k))%nat by lia.
  destruct (retry_skips_rejected k (S (2 - k)) 0 env id σ Hall) as [-> Hw].
  fold σk in Hw |- *. replace (k + 0)%nat with k by lia.
  destruct (RedisFacts.Watch_live σk (env k) (RedisStore.secretKey id) e s
              Hq Hs Hdec Hi Hlt Hnow b Henc) as (σ' & HW & Hw' & _).
  simpl. rewrite HW. simpl. split; [done|]. lia.
Qed.

Lemma redis_retry_recovers_witness :
  fst (@RedisStore.IncrementViews FieldCodec.codec Fixtures.contended_twice "abc"
         Fixtures.red_hour) = Ok 1 /\
  RedisStore.watches
    (snd (@RedisStore.IncrementViews FieldCodec.codec Fixtures.contended_twice
            "abc" Fixtures.red_hour)) = 3%nat.
Proof.
  apply (@redis_retry_recovers FieldCodec.codec 2 Fixtures.red_hour
           Fixtures.contended_twice "abc" Fixtures.s3_hour_entry Fixtures.s3_hour).
  - lia.
  - vm_compute. repeat split.
  - reflexivity.
  - vm_compute. reflexivity.
  - reflexivity.
  - eexists; reflexivity.
  - split; unfold Go.is_int, Go.int_min, Go.int_max; simpl; lia.
  - simpl. lia.
  - vm_compute. discriminate.
Defined.

Lemma retry_conflict_inv `{Gob} n i env id (σ : RedisStore.State) :
  fst (RedisStore.retry n i env id σ) = Err TxFailedErr ->
  RedisStore.all_rejected n i env (RedisStore.secretKey id) σ /\
  RedisStore.watches (snd (RedisStore.retry n i env id σ))
    = (RedisStore.watches σ + n)%nat.
Proof.
  revert σ i. induction n as [|n IH]; intros σ i Hf.
  - simpl. split; [done|]. unfold fail. simpl. lia.
  - simpl in Hf |- *.
    pose proof (RedisFacts.Watch_watches (env i) (RedisStore.secretKey id) σ) as Hw.
    destruct (RedisStore.Watch (env i) (RedisStore.secretKey id) σ) as [[v|e|] σ1];
      simpl in *; try discriminate.
    destruct e; simpl in *; try discriminate.
    destruct (IH σ1 (S i) Hf) as [Hall Hn]. split; [by split|]. lia.
Qed.

(** X15. The remote [IncrementViews] reports [TxFailedErr] only when all
    three of its transactions were refused; any other way out of the
    loop yields a count or one of the other errors. *)
Theorem redis_write_conflict_only_after_three `{Gob} (σ : RedisStore.State) env id :
  fst (RedisStore.IncrementViews env id σ) = Err TxFailedErr ->
  RedisStore.all_rejected 3 0 env (RedisStore.secretKey id) σ /\
  RedisStore.watches (snd (RedisStore.IncrementViews env id σ))
    = (RedisStore.watches σ + 3)%nat.
Proof. apply retry_conflict_inv. Qed.

Lemma redis_write_conflict_only_after_three_witness :
  RedisStore.all_rejected 3 0 Fixtures.contended (RedisStore.secretKey "abc")
    Fixtures.red_hour /\
  RedisStore.watches
    (snd (@RedisStore.IncrementViews FieldCodec.codec Fixtures.contended "abc"
            Fixtures.red_hour)) = 3%nat.
Proof.
  apply (@redis_write_conflict_only_after_three FieldCodec.codec Fixtures.red_hour
           Fixtures.contended "abc").
  reflexivity.
Defined.

(** ** The remote backend: a view budget, call by call *)

Lemma served_of_key `{Gob} (σ : RedisStore.State) key e d now :
  RedisStore.keys σ !! key = Some e -> RedisStore.deadline e = Some d ->
  now < d -> RedisStore.served now key σ = Some e.
Proof.
  intros Hk Hd Hnow. unfold RedisStore.served. rewrite Hk, Hd.
  destruct (Z.leb_spec d now); [lia|done].
Qed.

(** X16. On the remote backend, with no other client writing the key
    and a codec that reads back what it writes, a record with
    [k = MaxViews - CurrentViews] views left serves exactly [k] more
    sequential [IncrementViews] calls made before its deadline and at
    least [k] times 0.501 s before the key is due (each rewrite carries
    the time to live over in whole seconds, which can bring the due
    instant forward by up to that much): they return
    [CurrentViews + 1, ..., MaxViews] in order, and the last one deletes
    the key. *)
Theorem redis_view_budget `{Gob} (ts : list Go.Time) :
  (forall s', gob_round_trip s') ->
  forall (σ : RedisStore.State) id e s d,
  RedisStore.keys σ !! RedisStore.secretKey id = Some e ->
  RedisStore.deadline e = Some d ->
  gob_Decode (RedisStore.value e) = Some s ->
  int_fields s -> CurrentViews s < MaxViews s ->
  length ts = Z.to_nat (MaxViews s - CurrentViews s) ->
  Forall (fun now => now <= ExpiresAt s /\
                     now + (MaxViews s - CurrentViews s) * 501000000 <= d) ts ->
  exists σ',
    RedisTrace.increments ts id σ
      = (Ok (Ok <$> seqZ (CurrentViews s + 1) (MaxViews s - CurrentViews s)), σ') /\
    RedisStore.keys σ' !! RedisStore.secretKey id = None.
Proof.
  intros Hlaw.
  induction ts as [|now ts IH]; intros σ id e s d Hk Hd Hdec Hi Hlt Hlen Hall.
  { simpl in Hlen. lia. }
  apply Forall_cons in Hall as [[Hnow Hdue] Hall].
  destruct (Hlaw (with_views (CurrentViews s + 1) s)) as (b & Henc & Hdec').
  assert (Hs : RedisStore.served now (RedisStore.secretKey id) σ = Some e)
    by (apply (served_of_key σ _ e d now Hk Hd); lia).
  destruct (RedisFacts.Watch_live σ (RedisStore.quiet now) (RedisStore.secretKey id)
              e s eq_refl Hs Hdec Hi Hlt Hnow b Henc) as (σ1 & HW & _ & Hk1).
  simpl in Hlen. rewrite (seqZ_cons (CurrentViews s + 1)) by lia.
  simpl. unfold mbind, M_bind, bind, observe, mret, M_ret, ret.
  unfold RedisStore.IncrementViews at 1 2. simpl. rewrite HW. simpl.
  destruct (decide (CurrentViews s + 1 = MaxViews s)) as [Heq|Hne].
  - assert (ts = []) as -> by (destruct ts; [done|simpl in Hlen; lia]).
    simpl. rewrite seqZ_nil by lia. simpl.
    exists σ1. split; [done|]. rewrite Hk1. apply lookup_delete_eq.
  - rewrite Hd in Hk1. simpl in Hk1.
    pose proof (ttl_reply_pos (d - now)) as Hpos.
    pose proof (ttl_reply_bounds (d - now)) as Hbd.
    destruct (Z.ltb_spec 0 (RedisStore.ttl_reply (d - now))) as [_|?]; [|lia].
    destruct Hi as [Hm Hc].
    assert (Hi1 : int_fields (with_views (CurrentViews s + 1) s)).
    { split; simpl; [done|]. unfold Go.is_int, Go.int_min, Go.int_max in *. lia. }
    destruct (IH σ1 id
                 {| RedisStore.value := b;
                    RedisStore.deadline := Some (now + RedisStore.ttl_reply (d - now)) |}
                 (with_views (CurrentViews s + 1) s)
                 (now + RedisStore.ttl_reply (d - now)))
      as (σ' & Hrest & Hgone); try done.
    + by rewrite Hk1, lookup_insert_eq.
    + simpl. lia.
    + simpl. lia.
    + simpl. eapply Forall_impl; [exact Hall|]. simpl. intros now' [? ?]. lia.
    + simpl in Hrest.
      replace (Z.succ (CurrentViews s + 1)) with (CurrentViews s + 1 + 1) by lia.
      replace (Z.pred (MaxViews s - CurrentViews s))
        with (MaxViews s - (CurrentViews s + 1)) by lia.
      rewrite Hrest. simpl. by exists σ'.
Qed.

Lemma redis_view_budget_witness :
  exists σ',
    @RedisTrace.increments FieldCodec.codec
      [1400000000; 2 * Go.Second; 3598 * Go.Second] "abc" Fixtures.red_hour
      = (Ok [Ok 1; Ok 2; Ok 3], σ') /\
    RedisStore.keys σ' !! RedisStore.secretKey "abc" = None.
Proof.
  apply (@redis_view_budget FieldCodec.codec
           [1400000000; 2 * Go.Second; 3598 * Go.Second]
           field_codec_round_trip
           Fixtures.red_hour "abc" Fixtures.s3_hour_entry Fixtures.s3_hour
           (3600 * Go.Second));
    try reflexivity.
  - split; unfold Go.is_int, Go.int_min, Go.int_max; simpl; lia.
  - repeat constructor; vm_compute; discriminate.
Defined.

(** ** The remote backend: every key it writes expires *)

Lemma all_expiring_delete `{Gob} (σ : RedisStore.State) key :
  RedisTrace.all_expiring σ ->
  RedisTrace.all_expiring (RedisStore.set_keys (delete key (RedisStore.keys σ)) σ).
Proof.
  intros Hall k e. simpl. rewrite lookup_delete. case_decide; [done|]. apply Hall.
Qed.

Lemma all_expiring_insert `{Gob} (σ : RedisStore.State) key e :
  RedisTrace.all_expiring σ -> is_Some (RedisStore.deadline e) ->
  RedisTrace.all_expiring (RedisStore.set_keys (<[key := e]> (RedisStore.keys σ)) σ).
Proof.
  intros Hall He k e'. simpl. rewrite lookup_insert. case_decide.
  - by intros [= <-].
  - apply Hall.
Qed.

Lemma all_expiring_count `{Gob} (σ : RedisStore.State) :
  RedisTrace.all_expiring σ -> RedisTrace.all_expiring (RedisStore.count_watch σ).
Proof. done. Qed.

Lemma all_expiring_rival `{Gob} (σ : RedisStore.State) key w :
  RedisTrace.all_expiring σ ->
  (forall e, w = Some (Some e) -> is_Some (RedisStore.deadline e)) ->
  RedisTrace.all_expiring (snd (RedisStore.rival_write key w σ)).
Proof.
  intros Hall Hw. destruct w as [[e|]|]; simpl.
  - apply all_expiring_insert; [done|]. by apply Hw.
  - by apply all_expiring_delete.
  - done.
Qed.

Lemma all_expiring_Watch `{Gob} (σ : RedisStore.State) a key :
  RedisTrace.all_expiring σ ->
  (forall e, RedisStore.att_rival a = Some (Some e) ->
             is_Some (RedisStore.deadline e)) ->
  RedisTrace.all_expiring (snd (RedisStore.Watch a key σ)).
Proof.
  intros Hall Hw. apply all_expiring_count in Hall.
  pose proof (all_expiring_rival (RedisStore.count_watch σ) key
                (RedisStore.att_rival a) Hall Hw) as Hr.
  unfold RedisStore.Watch, RedisStore.txf, RedisStore.cmd_Get, RedisStore.cmd_TTL,
    RedisStore.decode, RedisStore.encode, mbind, M_bind, bind, gets, fail, mret,
    M_ret, ret.
  simpl.
  destruct (RedisStore.served _ key (RedisStore.count_watch σ)) as [e|] eqn:Hs; simpl.
  2: { by destruct (RedisStore.rival_write key _ _) as [[]?]. }
  destruct (gob_Decode (RedisStore.value e)) as [s|]; simpl.
  2: { by destruct (RedisStore.rival_write key _ _) as [[]?]. }
  destruct (Go.After _ _); simpl.
  { by destruct (RedisStore.rival_write key _ _) as [[]?]. }
  destruct (MaxViews s <=? CurrentViews s); simpl.
  { by destruct (RedisStore.rival_write key _ _) as [[]?]. }
  destruct (gob_Encode _) as [b|]; simpl.
  2: { by destruct (RedisStore.rival_write key _ _) as [[]?]. }
  rewrite ?Hs. simpl.
  destruct (RedisStore.att_rival a) as [[e0|]|] eqn:Hq; simpl in *.
  - destruct (MaxViews s <=? _);
      [|destruct (RedisStore.deadline e); [destruct (0 <? _)|]]; exact Hr.
  - destruct (MaxViews s <=? _);
      [|destruct (RedisStore.deadline e); [destruct (0 <? _)|]]; exact Hr.
  - destruct (MaxViews s <=? _); simpl.
    { apply (all_expiring_delete (RedisStore.count_watch σ) key Hall). }
    destruct (RedisStore.deadline e) as [d|]; simpl.
    + destruct (0 <? RedisStore.ttl_reply (d - RedisStore.att_now a)) eqn:Hpos;
        simpl; [|done].
      apply (all_expiring_insert (RedisStore.count_watch σ) key _ Hall).
      simpl. rewrite Hpos. by eexists.
    + done.
Qed.

(** X17. The remote backend only ever stores keys that expire.  If every
    key in the engine carries an expiry, it still does after [Save],
    [Get], [Delete] and [IncrementViews] -- provided the other clients
    racing with [IncrementViews] also write expiring keys only.  The
    empty engine is such a state. *)
Theorem redis_keys_always_expire `{Gob} (σ : RedisStore.State) :
  RedisTrace.all_expiring σ ->
  (forall now s, RedisTrace.all_expiring (snd (RedisStore.Save now s σ))) /\
  (forall now id, RedisTrace.all_expiring (snd (RedisStore.Get now id σ))) /\
  (forall id, RedisTrace.all_expiring (snd (RedisStore.Delete id σ))) /\
  (forall env id,
     (forall i e, RedisStore.att_rival (env i) = Some (Some e) ->
                  is_Some (RedisStore.deadline e)) ->
     RedisTrace.all_expiring (snd (RedisStore.IncrementViews env id σ))).
Proof.
  intros Hall. split; [|split; [|split]].
  - intros now s. RedisFacts.unfold_ops.
    destruct (gob_Encode s) as [b|]; simpl; [|done].
    destruct (Z.leb_spec (Go.Until now (ExpiresAt s)) 0); simpl; [done|].
    apply all_expiring_insert; [done|]. simpl.
    destruct (Z.ltb_spec 0 (Go.Until now (ExpiresAt s))); [by eexists|lia].
  - intros now id. rewrite RedisFacts.redis_Get_cases.
    destruct (RedisStore.served now _ σ) as [e|]; [|done].
    destruct (gob_Decode _) as [s|]; [|done].
    destruct (MaxViews s <=? CurrentViews s); [|done].
    by apply all_expiring_delete.
  - intros id. by apply all_expiring_delete.
  - intros env id Hriv. unfold RedisStore.IncrementViews.
    generalize 3%nat as n. intros n. generalize 0%nat as i. revert σ Hall.
    induction n as [|n IH]; intros σ Hall i; [done|].
    simpl.
    pose proof (all_expiring_Watch σ (env i) (RedisStore.secretKey id) Hall
                  (Hriv i)) as HW.
    destruct (RedisStore.Watch (env i) (RedisStore.secretKey id) σ) as [[v|e|] σ1];
      simpl in *; try done.
    destruct e; simpl; try done; try (by apply all_expiring_delete).
    by apply IH.
Qed.

Lemma redis_keys_always_expire_witness :
  RedisTrace.all_expiring
    (snd (@RedisStore.Save FieldCodec.codec 10 Fixtures.s3 Fixtures.red0)) /\
  RedisTrace.all_expiring
    (snd (@RedisStore.IncrementViews FieldCodec.codec Fixtures.contended "abc"
            Fixtures.red0)).
Proof.
  destruct (@redis_keys_always_expire FieldCodec.codec Fixtures.red0)
    as (Hs & _ & _ & Hi).
  - intros key e Hk. simpl in Hk. by rewrite lookup_empty in Hk.
  - split; [apply Hs|]. apply Hi. intros i e [= <-]. by eexists.
Defined.

(** * Further properties: crypto, handlers, configuration *)

(** ** internal/crypto *)

Lemma toy_strip_app (k text : list Byte.byte) : ToyAEAD.strip k (k ++ text) = Some text.
Proof.
  induction k as [|a k IH]; [done|]. simpl.
  by rewrite Byte.byte_dec_lb.
Qed.

Lemma toy_opens_sealed : @gcm_opens_sealed ToyAEAD.aead.
Proof. intros k nonce plaintext. apply toy_strip_app. Qed.

(** X18. [Decrypt] undoes [Encrypt] under the same passphrase: with a
    12-byte nonce from [rand.Read] and an AES-GCM that opens what it
    sealed, [Encrypt] succeeds, its output is the nonce followed by the
    sealed text (so at least 12 bytes long), and [Decrypt] of that output
    returns the plaintext. *)
Theorem crypto_decrypt_encrypt `{AEAD} (nonce plaintext : list Byte.byte)
    (passphrase : string) :
  gcm_opens_sealed ->
  length nonce = crypto.nonceSize ->
  exists ciphertext,
    crypto.Encrypt (Some nonce) plaintext passphrase = Ok ciphertext /\
    take crypto.nonceSize ciphertext = nonce /\
    (crypto.nonceSize <= length ciphertext)%nat /\
    crypto.Decrypt ciphertext passphrase = Ok plaintext.
Proof.
  intros Hlaw Hlen. eexists. unfold crypto.Encrypt.
  rewrite (proj2 (Nat.eqb_eq _ _) Hlen). split; [reflexivity|].
  split; [by rewrite take_app_length'|].
  split; [rewrite length_app; lia|].
  unfold crypto.Decrypt.
  destruct (Nat.ltb_spec (length (nonce ++ gcm_Seal (crypto.deriveKey passphrase)
                                            nonce plaintext)) crypto.nonceSize)
    as [Hlt|_]; [rewrite length_app in Hlt; lia|].
  rewrite take_app_length', drop_app_length' by done.
  by rewrite Hlaw.
Qed.

Lemma crypto_decrypt_encrypt_witness :
  exists ciphertext,
    @crypto.Encrypt ToyAEAD.aead
      (Some [Byte.x00; Byte.x01; Byte.x02; Byte.x03; Byte.x04; Byte.x05;
             Byte.x06; Byte.x07; Byte.x08; Byte.x09; Byte.x0a; Byte.x0b])
      [Byte.x68; Byte.x69] "pw" = Ok ciphertext /\
    take crypto.nonceSize ciphertext
      = [Byte.x00; Byte.x01; Byte.x02; Byte.x03; Byte.x04; Byte.x05;
         Byte.x06; Byte.x07; Byte.x08; Byte.x09; Byte.x0a; Byte.x0b] /\
    (crypto.nonceSize <= length ciphertext)%nat /\
    @crypto.Decrypt ToyAEAD.aead ciphertext "pw" = Ok [Byte.x68; Byte.x69].
Proof.
  apply (@crypto_decrypt_encrypt ToyAEAD.aead); [apply toy_opens_sealed|reflexivity].
Defined.

(** X19. [Decrypt] reports "ciphertext too short" exactly for inputs of
    fewer than 12 bytes, whatever the passphrase; on any longer input it
    either returns a plaintext or reports "decryption failed". *)
Theorem crypto_decrypt_too_short `{AEAD} (ciphertext : list Byte.byte)
    (passphrase : string) :
  (crypto.Decrypt ciphertext passphrase = Err (ErrOther "ciphertext too short")
   <-> (length ciphertext < 12)%nat) /\
  ((12 <= length ciphertext)%nat ->
   (exists plaintext, crypto.Decrypt ciphertext passphrase = Ok plaintext) \/
   crypto.Decrypt ciphertext passphrase = Err (ErrOther "decryption failed")).
Proof.
  unfold crypto.Decrypt, crypto.nonceSize.
  destruct (Nat.ltb_spec (length ciphertext) 12) as [Hlt|Hge].
  - split; [done|]. lia.
  - split.
    + split; [|lia]. destruct (gcm_Open _ _ _); discriminate.
    + intros _. destruct (gcm_Open _ _ _); [left; by eexists|by right].
Qed.

(** ** config *)

Lemma Validate_None (c : config.Config) :
  config.Validate c = None <-> config_valid c.
Proof.
  unfold config.Validate, config_valid.
  destruct (Z.ltb_spec (config.Port (config.Server c)) 1);
    [simpl; split; [done|lia]|].
  destruct (Z.ltb_spec 65535 (config.Port (config.Server c)));
    [simpl; split; [done|lia]|].
  simpl. case_bool_decide as Hb; [split; [done|tauto]|].
  destruct (decide (config.Type_ (config.Store c) = "memory")) as [Hm|Hm];
  destruct (decide (config.Type_ (config.Store c) = "redis")) as [Hr|Hr].
  - rewrite Hm in Hr. discriminate.
  - rewrite bool_decide_eq_false_2 by tauto. simpl.
    rewrite (bool_decide_eq_false_2 _ Hr). simpl.
    destruct (Z.leb_spec (config.DefaultTTL (config.Secrets c)) 0);
      [split; [done|lia]|].
    destruct (Z.ltb_spec (config.MaxTTL (config.Secrets c))
                (config.DefaultTTL (config.Secrets c))); [split; [done|lia]|].
    destruct (Z.ltb_spec (config.DefaultViews (config.Secrets c)) 1);
      [split; [done|lia]|].
    destruct (Z.ltb_spec (config.MaxViews (config.Secrets c))
                (config.DefaultViews (config.Secrets c))); [split; [done|lia]|].
    split; [|done]. intros _. repeat split; try done; try lia. by left.
  - rewrite (bool_decide_eq_true_2 _ Hm). rewrite bool_decide_eq_false_2 by tauto.
    simpl. rewrite (bool_decide_eq_true_2 _ Hr). simpl.
    case_bool_decide as Ha; [split; [done|tauto]|].
    destruct (Z.leb_spec (config.DefaultTTL (config.Secrets c)) 0);
      [split; [done|lia]|].
    destruct (Z.ltb_spec (config.MaxTTL (config.Secrets c))
                (config.DefaultTTL (config.Secrets c))); [split; [done|lia]|].
    destruct (Z.ltb_spec (config.DefaultViews (config.Secrets c)) 1);
      [split; [done|lia]|].
    destruct (Z.ltb_spec (config.MaxViews (config.Secrets c))
                (config.DefaultViews (config.Secrets c))); [split; [done|lia]|].
    split; [|done]. intros _. repeat split; try done; try lia. by right.
  - rewrite (bool_decide_eq_true_2 _ Hm), (bool_decide_eq_true_2 _ Hr). simpl.
    split; [done|]. tauto.
Qed.

(** X20. [Load] never hands out a configuration that [Validate] would
    refuse: whatever the file, the environment and the parsers do, a
    configuration returned by [Load] has a port in 1..65535, a base URL,
    store type "memory" or "redis" (with an address for "redis"), a
    positive default TTL not above the maximum TTL, and a default view
    count of at least 1 not above the maximum. *)
Theorem config_load_valid Getenv ReadFile Atoi ParseDuration yaml_Unmarshal
    path cfg :
  config.Load Getenv ReadFile Atoi ParseDuration yaml_Unmarshal path = inr cfg ->
  config_valid cfg.
Proof.
  unfold config.Load.
  destruct (if bool_decide (path <> "") then _ else _) as [e|c0]; [done|].
  destruct (config.Validate _) as [e|] eqn:Hv; [done|].
  intros [= <-]. by apply Validate_None.
Qed.

Lemma config_load_valid_witness :
  config_valid config.Default.
Proof.
  apply (config_load_valid empty_env (fun _ => config.FileNotExist)
           (fun _ => None) (fun _ => None) (fun _ _ => None) "").
  reflexivity.
Defined.

Lemma loadFromEnv_unset Atoi ParseDuration c :
  config.loadFromEnv empty_env Atoi ParseDuration c = c.
Proof. by destruct c as [[] [? []] [] []]. Qed.

(** X21. A configuration file that does not exist is not an error:
    [Load] with such a path behaves exactly as [Load] with no path, and
    with no variable set in the environment either, it returns the
    defaults. *)
Theorem config_load_missing_file Getenv ReadFile Atoi ParseDuration
    yaml_Unmarshal path :
  ReadFile path = config.FileNotExist ->
  config.Load Getenv ReadFile Atoi ParseDuration yaml_Unmarshal path
    = config.Load Getenv ReadFile Atoi ParseDuration yaml_Unmarshal "" /\
  config.Load empty_env ReadFile Atoi ParseDuration yaml_Unmarshal path
    = inr config.Default.
Proof.
  intros Hf. unfold config.Load, config.loadFromFile. rewrite Hf.
  split.
  - by case_bool_decide.
  - replace (if bool_decide (path <> "") then inr config.Default
             else inr config.Default)
      with (inr config.Default : config.LoadError + config.Config)
      by (by case_bool_decide).
    cbv beta iota zeta. rewrite loadFromEnv_unset. reflexivity.
Qed.

Lemma config_load_missing_file_witness :
  config.Load empty_env (fun _ => config.FileNotExist) (fun _ => None)
    (fun _ => None) (fun _ _ => None) "config.yaml" = inr config.Default.
Proof.
  apply (config_load_missing_file empty_env (fun _ => config.FileNotExist)
           (fun _ => None) (fun _ => None) (fun _ _ => None) "config.yaml").
  reflexivity.
Defined.

Lemma env_parsed_skip {A} Getenv (parse : string -> option A) name set c :
  parse (Getenv name) = None -> config.env_parsed Getenv parse name set c = c.
Proof. intros Hn. unfold config.env_parsed. rewrite Hn. by case_bool_decide. Qed.

(** X22. A numeric or duration variable whose value does not parse is
    skipped without an error: if the parsers reject what the environment
    holds, [loadFromEnv] leaves the port, the Redis database number, the
    TTLs, the view counts and the rate limits as they were. *)
Theorem config_env_unparsable_skipped Getenv Atoi ParseDuration c :
  (forall name, Atoi (Getenv name) = None) ->
  (forall name, ParseDuration (Getenv name) = None) ->
  let c' := config.loadFromEnv Getenv Atoi ParseDuration c in
  config.Port (config.Server c') = config.Port (config.Server c) /\
  config.DB (config.Redis (config.Store c'))
    = config.DB (config.Redis (config.Store c)) /\
  config.Secrets c' = config.Secrets c /\
  config.RequestsPerMin (config.RateLimit c')
    = config.RequestsPerMin (config.RateLimit c) /\
  config.RevealPerMin (config.RateLimit c')
    = config.RevealPerMin (config.RateLimit c).
Proof.
  intros Ha Hd. unfold config.loadFromEnv. cbv zeta.
  rewrite !(env_parsed_skip Getenv Atoi) by done.
  rewrite !(env_parsed_skip Getenv ParseDuration) by done.
  unfold config.env_string.
  destruct c as [[] [? []] [] []].
  repeat case_bool_decide; done.
Qed.

Lemma config_env_unparsable_skipped_witness :
  config.Port (config.Server
    (config.loadFromEnv (fun _ => "eighty") (fun _ => None) (fun _ => None)
       config.Default)) = 8080.
Proof.
  apply (config_env_unparsable_skipped (fun _ => "eighty") (fun _ => None)
           (fun _ => None) config.Default); done.
Defined.

(** ** internal/api: request limits *)

(** X23. With a configuration that passed [Validate], the view count and
    the lifetime a request ends up with are always within the configured
    limits, whatever the request asks for: [clamp] yields a count between
    1 and the configured maximum, [clampDuration] a positive duration not
    above the maximum TTL, and a requested value already within the
    limits is taken as it is. *)
Theorem api_clamp_within_limits (cfg : config.Config) (views ttl : Z) :
  config_valid cfg ->
  let s := config.Secrets cfg in
  1 <= api.clamp views (config.DefaultViews s) (config.MaxViews s)
    <= config.MaxViews s /\
  0 < api.clampDuration ttl (config.DefaultTTL s) (config.MaxTTL s)
    <= config.MaxTTL s /\
  (1 <= views <= config.MaxViews s ->
   api.clamp views (config.DefaultViews s) (config.MaxViews s) = views) /\
  (0 < ttl <= config.MaxTTL s ->
   api.clampDuration ttl (config.DefaultTTL s) (config.MaxTTL s) = ttl).
Proof.
  intros (_ & _ & _ & _ & Hd & Hm & Hv & Hmv). simpl.
  unfold api.clamp, api.clampDuration.
  destruct (Z.leb_spec views 0), (Z.leb_spec ttl 0);
    destruct (Z.ltb_spec (config.MaxViews (config.Secrets cfg)) views);
    destruct (Z.ltb_spec (config.MaxTTL (config.Secrets cfg)) ttl);
    repeat split; lia.
Qed.

Lemma api_clamp_within_limits_witness :
  1 <= api.clamp 500 1 10 <= 10 /\
  0 < api.clampDuration (-5) (1 * config.Hour) (24 * config.Hour)
    <= 24 * config.Hour.
Proof.
  destruct (api_clamp_within_limits config.Default 500 (-5)) as (Hc & Hd & _).
  - by apply Validate_None.
  - split; [exact Hc | exact Hd].
Defined.

(** ** internal/api: the handlers on the in-process store *)

(** X24. With a valid configuration, an open store and a request whose
    content is not empty, [CreateSecret] answers 201 and stores a secret
    that is live: no view used, between 1 and the configured maximum of
    views, and a deadline after the clock and at most the maximum TTL
    away -- whatever view count and lifetime the request asked for.  The
    new id leads to the new record, which [Get] hands out at once. *)
Theorem api_create_secret_live `{AEAD} (cfg : config.Config) req id passphrase
    nonce p now1 now2 (σ : MemoryStore.State) t :
  config_valid cfg ->
  api.Content req <> "" ->
  length nonce = crypto.nonceSize ->
  MemoryStore.secrets σ = Some t ->
  MemoryStore.heap σ !! p = None ->
  exists σ' s url,
    api.CreateSecret cfg (Some req) id passphrase (Some nonce) p now1 now2 σ
      = (Ok {| api.status := 201;
               api.body := api.Created
                 {| api.cr_ID := id; api.cr_URL := url;
                    api.cr_ExpiresAt := ExpiresAt s;
                    api.cr_MaxViews := MaxViews s |} |}, σ') /\
    MemoryStore.secrets σ' = Some (<[id := p]> t) /\
    MemoryStore.heap σ' = <[p := s]> (MemoryStore.heap σ) /\
    ID s = id /\ Passphrase s = passphrase /\ CreatedAt s = now2 /\
    CurrentViews s = 0 /\
    1 <= MaxViews s <= config.MaxViews (config.Secrets cfg) /\
    now1 < ExpiresAt s <= now1 + config.MaxTTL (config.Secrets cfg) /\
    MemoryStore.Get now1 id σ' = (Ok p, σ').
Proof.
  intros Hcfg Hc Hlen Ht Hp.
  destruct (api_clamp_within_limits cfg (api.MaxViews req)
              (Go.int_wrap (api.TTLMinutes req * api.Minute)) Hcfg)
    as (Hviews & Httl & _).
  unfold api.CreateSecret. rewrite bool_decide_eq_false_2 by done.
  unfold crypto.Encrypt. rewrite (proj2 (Nat.eqb_eq _ _) Hlen).
  set (s := {| ID := id; EncryptedData := _; MaxViews := _; CurrentViews := 0;
               ExpiresAt := _; CreatedAt := now2; Passphrase := passphrase |}).
  unfold MemoryTrace.alloc, observe, mbind, M_bind, bind, modify, mret, M_ret, ret.
  rewrite Hp. simpl.
  set (σ1 := MemoryStore.set_heap (<[p := s]> (MemoryStore.heap σ)) σ).
  assert (Hs1 : MemoryStore.heap σ1 !! p = Some s) by apply lookup_insert_eq.
  rewrite (MemoryFacts.Save_open σ1 t p s Ht Hs1). simpl.
  unfold MemoryStore.deref. simpl. rewrite lookup_insert_eq.
  eexists _, s, _. split; [reflexivity|]. simpl.
  repeat (split; [done || lia|]).
  rewrite MemoryFacts.mem_Get_cases. simpl. rewrite !lookup_insert_eq. simpl.
  rewrite After_false by lia.
  destruct (Z.leb_spec (api.clamp (api.MaxViews req)
              (config.DefaultViews (config.Secrets cfg))
              (config.MaxViews (config.Secrets cfg))) 0); [lia|done].
Qed.

Lemma api_create_secret_live_witness :
  exists σ' s url,
    @api.CreateSecret ToyAEAD.aead config.Default
      (Some {| api.Content := "hi"; api.MaxViews := 500; api.TTLMinutes := -3 |})
      "id1" "pw"
      (Some [Byte.x00; Byte.x01; Byte.x02; Byte.x03; Byte.x04; Byte.x05;
             Byte.x06; Byte.x07; Byte.x08; Byte.x09; Byte.x0a; Byte.x0b])
      9%positive 100 101 Fixtures.mem1
      = (Ok {| api.status := 201;
               api.body := api.Created
                 {| api.cr_ID := "id1"; api.cr_URL := url;
                    api.cr_ExpiresAt := ExpiresAt s;
                    api.cr_MaxViews := MaxViews s |} |}, σ') /\
    MemoryStore.secrets σ' = Some (<["id1" := 9%positive]> {[ "abc" := 1%positive ]}) /\
    MemoryStore.heap σ' = <[9%positive := s]> (MemoryStore.heap Fixtures.mem1) /\
    ID s = "id1" /\ Passphrase s = "pw" /\ CreatedAt s = 101 /\
    CurrentViews s = 0 /\
    1 <= MaxViews s <= 10 /\
    100 < ExpiresAt s <= 100 + 24 * config.Hour /\
    MemoryStore.Get 100 "id1" σ' = (Ok 9%positive, σ').
Proof.
  apply (@api_create_secret_live ToyAEAD.aead config.Default); try reflexivity.
  - by apply Validate_None.
  - discriminate.
Defined.

Lemma Get_live (σ : MemoryStore.State) id p s now :
  MemoryStore.secrets σ ≫= (.!! id) = Some p ->
  MemoryStore.heap σ !! p = Some s ->
  now <= ExpiresAt s -> CurrentViews s < MaxViews s ->
  MemoryStore.Get now id σ = (Ok p, σ).
Proof.
  intros Hid Hp Hnow Hv. rewrite MemoryFacts.mem_Get_cases, Hid, Hp.
  rewrite After_false by done.
  destruct (Z.leb_spec (MaxViews s) (CurrentViews s)); [lia|done].
Qed.

(** X25. [RevealSecret] checks the passphrase before it touches the view
    count: a request without passphrase gets 400, and a request for a
    live secret with a passphrase other than the stored one gets 403; in
    both cases the store is exactly as before, no view is used. *)
Theorem api_reveal_wrong_passphrase `{AEAD} (σ : MemoryStore.State) id p s
    passphrase now1 now2 :
  MemoryStore.secrets σ ≫= (.!! id) = Some p ->
  MemoryStore.heap σ !! p = Some s ->
  now1 <= ExpiresAt s -> CurrentViews s < MaxViews s ->
  passphrase <> Passphrase s ->
  api.RevealSecret id "" now1 now2 σ
    = (Ok (api.error_ 400 "passphrase is required"), σ) /\
  (passphrase <> "" ->
   api.RevealSecret id passphrase now1 now2 σ
     = (Ok (api.error_ 403 "invalid passphrase"), σ)).
Proof.
  intros Hid Hp Hnow Hv Hne. split; [done|]. intros Hnon.
  unfold api.RevealSecret. rewrite bool_decide_eq_false_2 by done.
  unfold observe, mbind, M_bind, bind, mret, M_ret, ret.
  rewrite (Get_live σ id p s now1 Hid Hp Hnow Hv). simpl.
  unfold MemoryStore.deref. rewrite Hp.
  by rewrite bool_decide_eq_true_2.
Qed.

Lemma api_reveal_wrong_passphrase_witness :
  @api.RevealSecret ToyAEAD.aead "abc" "" 10 20 Fixtures.mem1
    = (Ok (api.error_ 400 "passphrase is required"), Fixtures.mem1) /\
  ("guess" <> "" ->
   @api.RevealSecret ToyAEAD.aead "abc" "guess" 10 20 Fixtures.mem1
     = (Ok (api.error_ 403 "invalid passphrase"), Fixtures.mem1)).
Proof.
  apply (@api_reveal_wrong_passphrase ToyAEAD.aead Fixtures.mem1 "abc" 1%positive
           Fixtures.s3 "guess" 10 20); try reflexivity; try (simpl; lia).
  discriminate.
Defined.

(** X26. [RevealSecret] with the right passphrase on a live secret uses
    one view whether or not the ciphertext then decrypts: the store ends
    as [IncrementViews] leaves it.  If [Decrypt] succeeds the answer is
    200 with the plaintext and [MaxViews] minus the new count, a number
    from 0 to [MaxViews - 1]; if it fails the answer is 500 and the view
    is spent all the same. *)
Theorem api_reveal_uses_a_view `{AEAD} (σ : MemoryStore.State) t id p s now1 now2 :
  MemoryStore.secrets σ = Some t -> t !! id = Some p ->
  MemoryStore.heap σ !! p = Some s ->
  int_fields s -> 0 <= CurrentViews s < MaxViews s ->
  now1 <= ExpiresAt s -> now2 <= ExpiresAt s ->
  Passphrase s <> "" ->
  let remaining := MaxViews s - (CurrentViews s + 1) in
  exists σ',
    MemoryStore.IncrementViews now2 id σ = (Ok (CurrentViews s + 1), σ') /\
    0 <= remaining < MaxViews s /\
    api.RevealSecret id (Passphrase s) now1 now2 σ =
      (Ok match crypto.Decrypt (EncryptedData s) (Passphrase s) with
          | Ok content =>
              {| api.status := 200;
                 api.body := api.Revealed
                   {| api.rr_Content := String.string_of_list_byte content;
                      api.rr_ViewsRemaining := remaining |} |}
          | _ => api.error_ 500 "decryption failed"
          end, σ').
Proof.
  intros Ht Hid Hp Hi [Hpos Hlt] Hn1 Hn2 Hpw remaining.
  destruct (MemoryFacts.mem_IncrementViews_live σ t id p s now2 Ht Hid Hp Hi Hlt Hn2)
    as (σ' & Hrun & Hle & Hh & _).
  exists σ'. split; [done|]. destruct Hi as [Hm Hc].
  split; [unfold Go.is_int, Go.int_min, Go.int_max in *; subst remaining; lia|].
  unfold api.RevealSecret. rewrite bool_decide_eq_false_2 by done.
  unfold observe, mbind, M_bind, bind, mret, M_ret, ret.
  rewrite (Get_live σ id p s now1) by (by rewrite ?Ht). simpl.
  unfold MemoryStore.deref. rewrite Hp.
  rewrite bool_decide_eq_false_2 by (by intros ?).
  rewrite Hrun. simpl. rewrite Hh, lookup_insert_eq. simpl.
  rewrite int_wrap_id
    by (unfold Go.is_int, Go.int_min, Go.int_max in *; lia).
  by destruct (crypto.Decrypt _ _).
Qed.

Lemma api_reveal_uses_a_view_witness :
  exists σ',
    MemoryStore.IncrementViews 20 "abc" Fixtures.mem1 = (Ok 1, σ') /\
    0 <= 2 < 3 /\
    @api.RevealSecret ToyAEAD.aead "abc" "pw" 10 20 Fixtures.mem1 =
      (Ok (api.error_ 500 "decryption failed"), σ').
Proof.
  apply (@api_reveal_uses_a_view ToyAEAD.aead Fixtures.mem1
           {[ "abc" := 1%positive ]} "abc" 1%positive Fixtures.s3 10 20);
    try reflexivity; try (simpl; lia); try discriminate.
  split; unfold Go.is_int, Go.int_min, Go.int_max; simpl; lia.
Defined.

Lemma CreateSecret_state `{AEAD} (cfg : config.Config) req id passphrase
    nonce p now1 now2 (σ : MemoryStore.State) t :
  api.Content req <> "" ->
  length nonce = crypto.nonceSize ->
  MemoryStore.secrets σ = Some t ->
  MemoryStore.heap σ !! p = None ->
  let s :=
    {| ID := id;
       EncryptedData := nonce ++ gcm_Seal (crypto.deriveKey passphrase) nonce
                                  (String.list_byte_of_string (api.Content req));
       MaxViews := api.clamp (api.MaxViews req)
                     (config.DefaultViews (config.Secrets cfg))
                     (config.MaxViews (config.Secrets cfg));
       CurrentViews := 0;
       ExpiresAt := now1 + api.clampDuration
                             (Go.int_wrap (api.TTLMinutes req * api.Minute))
                             (config.DefaultTTL (config.Secrets cfg))
                             (config.MaxTTL (config.Secrets cfg));
       CreatedAt := now2;
       Passphrase := passphrase |} in
  snd (api.CreateSecret cfg (Some req) id passphrase (Some nonce) p now1 now2 σ)
    = MemoryStore.set_secrets (Some (<[id := p]> t))
        (MemoryStore.set_heap (<[p := s]> (MemoryStore.heap σ)) σ).
Proof.
  intros Hc Hlen Ht Hp s.
  unfold api.CreateSecret. rewrite bool_decide_eq_false_2 by done.
  unfold crypto.Encrypt. rewrite (proj2 (Nat.eqb_eq _ _) Hlen).
  fold s.
  unfold MemoryTrace.alloc, observe, mbind, M_bind, bind, modify, mret, M_ret, ret.
  rewrite Hp. simpl.
  set (σ1 := MemoryStore.set_heap (<[p := s]> (MemoryStore.heap σ)) σ).
  assert (Hs1 : MemoryStore.heap σ1 !! p = Some s) by apply lookup_insert_eq.
  rewrite (MemoryFacts.Save_open σ1 t p s Ht Hs1). simpl.
  unfold MemoryStore.deref. simpl. by rewrite lookup_insert_eq.
Qed.

(** X27. What [CreateSecret] stores, [RevealSecret] gives back: after a
    create under a valid configuration, a first reveal with the
    generated passphrase, made before the deadline, answers 200 with
    exactly the content of the request and one view less than granted --
    provided AES-GCM opens what it sealed. *)
Theorem api_create_then_reveal `{AEAD} (cfg : config.Config) req id passphrase
    nonce p now1 now2 n1 n2 (σ : MemoryStore.State) t :
  gcm_opens_sealed ->
  config_valid cfg ->
  Go.is_int (config.MaxViews (config.Secrets cfg)) ->
  api.Content req <> "" -> passphrase <> "" ->
  length nonce = crypto.nonceSize ->
  MemoryStore.secrets σ = Some t ->
  MemoryStore.heap σ !! p = None ->
  let σ1 := snd (api.CreateSecret cfg (Some req) id passphrase (Some nonce) p
                   now1 now2 σ) in
  let granted := api.clamp (api.MaxViews req)
                   (config.DefaultViews (config.Secrets cfg))
                   (config.MaxViews (config.Secrets cfg)) in
  let ttl := api.clampDuration (Go.int_wrap (api.TTLMinutes req * api.Minute))
               (config.DefaultTTL (config.Secrets cfg))
               (config.MaxTTL (config.Secrets cfg)) in
  n1 <= now1 + ttl -> n2 <= now1 + ttl ->
  fst (api.RevealSecret id passphrase n1 n2 σ1) =
    Ok {| api.status := 200;
          api.body := api.Revealed
            {| api.rr_Content := api.Content req;
               api.rr_ViewsRemaining := granted - 1 |} |}.
Proof.
  intros Hlaw Hcfg Hint Hc Hpw Hlen Ht Hp σ1 granted ttl Hn1 Hn2.
  destruct (api_clamp_within_limits cfg (api.MaxViews req)
              (Go.int_wrap (api.TTLMinutes req * api.Minute)) Hcfg)
    as (Hviews & _).
  pose proof (CreateSecret_state cfg req id passphrase nonce p now1 now2 σ t
                Hc Hlen Ht Hp) as Hst.
  cbv zeta in Hst. fold granted ttl in Hst. fold σ1 in Hst.
  set (s := {| ID := id; EncryptedData := _; MaxViews := granted;
               CurrentViews := 0; ExpiresAt := now1 + ttl; CreatedAt := now2;
               Passphrase := passphrase |}) in Hst.
  assert (Hi : int_fields s).
  { split; simpl; unfold Go.is_int, Go.int_min, Go.int_max in *;
      subst granted; lia. }
  destruct (api_reveal_uses_a_view σ1 (<[id := p]> t) id p s n1 n2)
    as (σ2 & _ & _ & Hrev).
  - by rewrite Hst.
  - apply lookup_insert_eq.
  - rewrite Hst. simpl. apply lookup_insert_eq.
  - done.
  - simpl. subst granted. lia.
  - done.
  - done.
  - done.
  - simpl in Hrev. rewrite Hrev. simpl.
    destruct (crypto_decrypt_encrypt nonce
                (String.list_byte_of_string (api.Content req)) passphrase Hlaw Hlen)
      as (ct & Hct & _ & _ & Hdec).
    unfold crypto.Encrypt in Hct. rewrite (proj2 (Nat.eqb_eq _ _) Hlen) in Hct.
    injection Hct as <-. rewrite Hdec.
    rewrite String.string_of_list_byte_of_string.
    do 4 f_equal.
Qed.

Lemma api_create_then_reveal_witness :
  fst (@api.RevealSecret ToyAEAD.aead "id1" "pw" 150 160
         (snd (@api.CreateSecret ToyAEAD.aead config.Default
                 (Some {| api.Content := "hi"; api.MaxViews := 3;
                          api.TTLMinutes := 5 |})
                 "id1" "pw"
                 (Some [Byte.x00; Byte.x01; Byte.x02; Byte.x03; Byte.x04; Byte.x05;
                        Byte.x06; Byte.x07; Byte.x08; Byte.x09; Byte.x0a; Byte.x0b])
                 9%positive 100 101 Fixtures.mem1))) =
    Ok {| api.status := 200;
          api.body := api.Revealed
            {| api.rr_Content := "hi"; api.rr_ViewsRemaining := 3 - 1 |} |}.
Proof.
  apply (@api_create_then_reveal ToyAEAD.aead config.Default
           {| api.Content := "hi"; api.MaxViews := 3; api.TTLMinutes := 5 |}
           "id1" "pw" _ 9%positive 100 101 150 160 Fixtures.mem1
           {[ "abc" := 1%positive ]});
    try reflexivity; try discriminate; try lia.
  - apply toy_opens_sealed.
  - by apply Validate_None.
  - unfold Go.is_int, Go.int_min, Go.int_max. simpl. lia.
Defined.

(** X28. The reveal that uses the last view burns the secret: it reports
    0 views remaining (when the ciphertext decrypts), and from then on
    every [RevealSecret] for that id gets 404 "secret not found" and
    [GetStatus] reports that it does not exist, with the store left as
    it is. *)
Theorem api_last_reveal_burns `{AEAD} (σ : MemoryStore.State) t id p s now1 now2 :
  MemoryStore.secrets σ = Some t -> t !! id = Some p ->
  MemoryStore.heap σ !! p = Some s ->
  int_fields s -> 0 <= CurrentViews s -> CurrentViews s + 1 = MaxViews s ->
  now1 <= ExpiresAt s -> now2 <= ExpiresAt s ->
  Passphrase s <> "" ->
  let σ' := snd (api.RevealSecret id (Passphrase s) now1 now2 σ) in
  (forall content,
     crypto.Decrypt (EncryptedData s) (Passphrase s) = Ok content ->
     fst (api.RevealSecret id (Passphrase s) now1 now2 σ) =
       Ok {| api.status := 200;
             api.body := api.Revealed
               {| api.rr_Content := String.string_of_list_byte content;
                  api.rr_ViewsRemaining := 0 |} |}) /\
  (forall passphrase n1 n2, passphrase <> "" ->
     api.RevealSecret id passphrase n1 n2 σ'
       = (Ok (api.error_ 404 "secret not found"), σ')) /\
  (forall now,
     api.GetStatus id now σ' =
       (Ok {| api.status := 200;
              api.body := api.Status
                {| api.sr_ID := id; api.sr_Exists := false;
                   api.sr_Expired := false; api.sr_ViewsRemaining := 0;
                   api.sr_ExpiresAt := None |} |}, σ')).
Proof.
  intros Ht Hid Hp Hi Hpos Heq Hn1 Hn2 Hpw.
  destruct (api_reveal_uses_a_view σ t id p s now1 now2 Ht Hid Hp Hi)
    as (σ1 & Hinc & _ & Hrev); try done; [lia|].
  destruct (MemoryFacts.mem_IncrementViews_live σ t id p s now2 Ht Hid Hp Hi)
    as (σ1' & Hinc' & _ & _ & Hsec); [lia|done|].
  rewrite Hinc in Hinc'. injection Hinc' as <-.
  rewrite decide_True in Hsec by done.
  rewrite Hrev. simpl.
  assert (Hgone : forall now, MemoryStore.Get now id σ1 = (Err ErrNotFound, σ1)).
  { intros now. rewrite MemoryFacts.mem_Get_cases, Hsec. simpl.
    by rewrite lookup_delete_eq. }
  split; [|split].
  - intros content ->. do 4 f_equal. lia.
  - intros passphrase n1 n2 Hne. unfold api.RevealSecret.
    rewrite bool_decide_eq_false_2 by done.
    unfold observe, mbind, M_bind, bind, mret, M_ret, ret. by rewrite Hgone.
  - intros now. unfold api.GetStatus.
    unfold observe, mbind, M_bind, bind, mret, M_ret, ret. by rewrite Hgone.
Qed.

Lemma api_last_reveal_burns_witness :
  CurrentViews Fixtures.s3_last + 1 = MaxViews Fixtures.s3_last /\
  (forall passphrase n1 n2, passphrase <> "" ->
    @api.RevealSecret ToyAEAD.aead "abc" passphrase n1 n2
      (snd (@api.RevealSecret ToyAEAD.aead "abc" "pw" 10 20 Fixtures.mem_last))
    = (Ok (api.error_ 404 "secret not found"),
       snd (@api.RevealSecret ToyAEAD.aead "abc" "pw" 10 20 Fixtures.mem_last))).
Proof.
  split; [reflexivity|].
  apply (@api_last_reveal_burns ToyAEAD.aead Fixtures.mem_last
           {[ "abc" := 2%positive ]} "abc" 2%positive Fixtures.s3_last 10 20);
    try reflexivity; try discriminate.
  split; unfold Go.is_int, Go.int_min, Go.int_max; simpl; lia.
Defined.

Lemma GetStatus_run (σ : MemoryStore.State) id now :
  api.GetStatus id now σ =
    (match fst (MemoryStore.Get now id σ) with
     | Panic => Panic
     | Err err =>
         Ok {| api.status := 200;
               api.body := api.Status
                 {| api.sr_ID := id; api.sr_Exists := false;
                    api.sr_Expired := match err with
                                      | ErrExpired => true
                                      | _ => false
                                      end;
                    api.sr_ViewsRemaining := 0; api.sr_ExpiresAt := None |} |}
     | Ok secret =>
         match MemoryStore.heap σ !! secret with
         | Some s =>
             Ok {| api.status := 200;
                   api.body := api.Status
                     {| api.sr_ID := id; api.sr_Exists := true;
                        api.sr_Expired := false;
                        api.sr_ViewsRemaining :=
                          Go.int_wrap (MaxViews s - CurrentViews s);
                        api.sr_ExpiresAt := Some (ExpiresAt s) |} |}
         | None => Panic
         end
     end, σ).
Proof.
  unfold api.GetStatus, observe, mbind, M_bind, bind, mret, M_ret, ret.
  pose proof (MemoryFacts.Get_frame σ now id) as Hf.
  destruct (MemoryStore.Get now id σ) as [[p|e|] σ']; simpl in *; subst σ';
    [|done|done].
  unfold MemoryStore.deref. by destruct (MemoryStore.heap σ !! p).
Qed.

(** X29. [GetStatus] always answers 200 and never changes the store.  For
    a live secret it reports that it exists, with [MaxViews -
    CurrentViews] views remaining (at least 1) and its deadline; for an
    id that is not in the table it reports neither existing nor expired;
    for a secret past its deadline it reports expired, and leaves the
    record in the table. *)
Theorem api_get_status (σ : MemoryStore.State) id now :
  snd (api.GetStatus id now σ) = σ /\
  (MemoryStore.secrets σ ≫= (.!! id) = None ->
   fst (api.GetStatus id now σ) =
     Ok {| api.status := 200;
           api.body := api.Status
             {| api.sr_ID := id; api.sr_Exists := false; api.sr_Expired := false;
                api.sr_ViewsRemaining := 0; api.sr_ExpiresAt := None |} |}) /\
  (forall p s,
     MemoryStore.secrets σ ≫= (.!! id) = Some p ->
     MemoryStore.heap σ !! p = Some s ->
     (ExpiresAt s < now ->
      fst (api.GetStatus id now σ) =
        Ok {| api.status := 200;
              api.body := api.Status
                {| api.sr_ID := id; api.sr_Exists := false; api.sr_Expired := true;
                   api.sr_ViewsRemaining := 0; api.sr_ExpiresAt := None |} |}) /\
     (now <= ExpiresAt s -> 0 <= CurrentViews s < MaxViews s -> int_fields s ->
      1 <= MaxViews s - CurrentViews s <= MaxViews s /\
      fst (api.GetStatus id now σ) =
        Ok {| api.status := 200;
              api.body := api.Status
                {| api.sr_ID := id; api.sr_Exists := true; api.sr_Expired := false;
                   api.sr_ViewsRemaining := MaxViews s - CurrentViews s;
                   api.sr_ExpiresAt := Some (ExpiresAt s) |} |})).
Proof.
  rewrite GetStatus_run, MemoryFacts.mem_Get_cases. cbn [fst snd].
  destruct (MemoryStore.secrets σ ≫= (.!! id)) as [p|] eqn:Hid.
  2: { split; [done|]. split; [done|]. intros p s [=]. }
  destruct (MemoryStore.heap σ !! p) as [s|] eqn:Hp.
  2: { split; [done|]. split; [intros [=]|]. intros p' s' [= <-] Hp'.
       rewrite Hp in Hp'. discriminate. }
  split; [done|]. split; [intros [=]|].
  intros p' s' [= <-] Hp'. rewrite Hp in Hp'. injection Hp' as <-. split.
  - intros Hexp. by rewrite After_true.
  - intros Hnow [Hpos Hv] [Hm Hc]. split; [lia|]. rewrite After_false by done.
    destruct (Z.leb_spec (MaxViews s) (CurrentViews s)); [lia|].
    rewrite Hp. rewrite int_wrap_id
      by (unfold Go.is_int, Go.int_min, Go.int_max in *; lia).
    done.
Qed.

Lemma api_get_status_witness :
  snd (api.GetStatus "old" 500 Fixtures.mem2) = Fixtures.mem2 /\
  fst (api.GetStatus "old" 500 Fixtures.mem2) =
    Ok {| api.status := 200;
          api.body := api.Status
            {| api.sr_ID := "old"; api.sr_Exists := false; api.sr_Expired := true;
               api.sr_ViewsRemaining := 0; api.sr_ExpiresAt := None |} |}.
Proof.
  destruct (api_get_status Fixtures.mem2 "old" 500) as (Hf & _ & Hr).
  split; [exact Hf|].
  apply (Hr 3%positive Fixtures.dead); [reflexivity | reflexivity | simpl; lia].
Defined.
